(** * Feed fan-out worker (package [worker]): model and properties

    The consumer side of the feed system: [New], [Worker.Run],
    [Worker.readLoop], [Worker.processLoop], [waitWithContext] and
    [Worker.Close], together with the two interfaces they call
    ([store.StoreInterface], [appkafka.KafkaReader]) and the test doubles
    [MockStore] and [MockKafkaReader].

    Go's goroutines are modelled by an executable interleaving machine: a
    [State] holds the program counter of the goroutine running
    [Run]/[readLoop], of every [processLoop] goroutine and the list of launched
    fan-out goroutines; a [Choice] is one decision of the scheduler or of the
    environment (which goroutine runs next, which ready [select] case fires,
    a clock tick, cancellation of the context). *)

From Stdlib Require Import ZArith Lia Strings.Byte.
From stdpp Require Import base list strings gmap pretty.

Local Open Scope Z_scope.

(** ** Go basics *)

(** Go's [error]: only nil-ness and identity matter here. *)
Definition error := string.

(** [[]byte]. *)
Abbreviation bytes := (list byte).

(** Go's [int] on a 64-bit platform: a [Z] kept in range by [wrap]. *)
Definition int_min : Z := - 2 ^ 63.
Definition int_max : Z := 2 ^ 63 - 1.
Definition wrap (z : Z) : Z := (z + 2 ^ 63) mod 2 ^ 64 - 2 ^ 63.

(** ** package models *)

Module models.
Record Post := {
  ID : string;
  AuthorID : string;
  Body : string;
  Created : Z (* time.Time, as an instant *)
}.
End models.
Import models.

#[global] Instance Post_eq_dec : EqDecision Post.
Proof. solve_decision. Defined.

(** ** package store: the operations of [StoreInterface] the worker calls *)

Module store.
Class StoreInterface (S : Type) := {
  GetFollowers : string → S → S * (list string * option error);
  AddToFeed : string → Post → S → S * option error;
  Close : S → S
}.
End store.

(** ** package appkafka: [KafkaReader] *)

Module appkafka.
(** [kafka.Message]; only [Value] is read. *)
Record Message := { Value : bytes }.

(** [ReadMessage] receives the context as the flag "ctx is done". *)
Class KafkaReader (R : Type) := {
  ReadMessage : bool → R → R * (Message * option error);
  Close : R → R * option error
}.
End appkafka.

(** ** package encoding/json *)

Module json.
(** [json.Unmarshal(data, &post)]: [None] stands for a non-nil error. *)
Class Decoder := { Unmarshal : bytes → option Post }.
End json.

(** ** Observable events: calls on the collaborators, channel operations and
    log lines, in the order they happen. *)

Inductive Level := Info | Error.

Inductive Event :=
| Log (lvl : Level) (msg : string)
| CallReadMessage (value : bytes) (failed : bool)
| CallGetFollowers (id : nat) (author : string) (failed : bool)
| CallAddToFeed (id : nat) (u : string) (post : Post) (failed : bool)
| Enqueue (value : bytes)
| Dequeue (id : nat) (value : bytes)
| CloseJobs
| WorkerReturn (id : nat)
| CallReaderClose (failed : bool)
| CallStoreClose.

(** ** The worker *)

Section Worker.
Context {S R : Type}.
Context `{HS : !store.StoreInterface S, HR : !appkafka.KafkaReader R, HD : !json.Decoder}.

Record Worker := {
  store_ : S;
  reader : R;
  workerCount : Z;
  jobQueueSize : Z
}.

(** [New]; [NumCPU] is the value of [runtime.NumCPU()]. *)
Definition New (NumCPU : Z) (st : S) (rd : R) (workerCount jobQueueSize : Z) : Worker :=
  let workerCount := if workerCount <=? 0 then NumCPU else workerCount in
  let jobQueueSize := if jobQueueSize <=? 0 then wrap (workerCount * 10) else jobQueueSize in
  {| store_ := st; reader := rd; workerCount := workerCount; jobQueueSize := jobQueueSize |}.

(** The delay of [readLoop], in milliseconds:
    [time.Duration(math.Min(1000, math.Pow(2, float64(retry))))].
    For an integer exponent [math.Pow(2, n)] is the exact power of two
    while it is representable and +Inf above, so the minimum with 1000 is
    exact; for a negative exponent it lies strictly between 0 and 1 and the
    conversion truncates it to 0, which is also what [2 ^ retry] is in [Z]. *)
Definition backoff (retry : Z) : Z := Z.min 1000 (2 ^ retry).

(** [Worker.Close]: the events, the worker afterwards and the returned error. *)
Definition Close (w : Worker) : list Event * Worker * option error :=
  let '(rd, err) := appkafka.Close (reader w) in
  let w1 := {| store_ := store_ w; reader := rd;
               workerCount := workerCount w; jobQueueSize := jobQueueSize w |} in
  match err with
  | Some e =>
      ([Log Info "Closing Kafka reader"; CallReaderClose true;
        Log Error "Error closing Kafka reader"], w1, Some e)
  | None =>
      ([Log Info "Closing Kafka reader"; CallReaderClose false;
        Log Info "Closing Cassandra session"; CallStoreClose],
       {| store_ := store.Close (store_ w1); reader := rd;
          workerCount := workerCount w; jobQueueSize := jobQueueSize w |}, None)
  end.

(** *** The machine *)

(** The buffered channel [jobs]. *)
Record Chan := { buf : list bytes; cap : Z; closed : bool }.

Definition make_chan (n : Z) : Chan := {| buf := []; cap := n; closed := false |}.

(** Where the goroutine running [Run] stands; [readLoop] is called inline. *)
Inductive MainPC :=
| M_Select                          (* readLoop: select at the top of the loop *)
| M_Read                            (* readLoop: w.reader.ReadMessage(ctx) *)
| M_Backoff (deadline : Z)          (* readLoop: waitWithContext(ctx, backoff) *)
| M_Idle (deadline : Z)             (* readLoop: waitWithContext(ctx, 50ms) *)
| M_Push (v : bytes) (deadline : Z) (* readLoop: select on jobs <- msg.Value *)
| M_Close                           (* Run: readLoop returned, close(jobs) next *)
| M_Wait                            (* Run: wg.Wait() *)
| M_Done.                           (* Run returned *)

(** Where a [processLoop] goroutine stands. *)
Inductive ProcPC :=
| P_Select                                             (* select at the top of the loop *)
| P_Fetch (post : Post)                                (* w.store.GetFollowers(post.AuthorID) *)
| P_Range (post : Post) (rest : list string)           (* for _, uid := range: select *)
| P_Acquire (post : Post) (u : string) (rest : list string) (* semaphore <- struct{}{} *)
| P_Wait (post : Post)                                 (* fanoutWG.Wait() *)
| P_Returned.

(** A launched fan-out goroutine that has not run yet: the [processLoop]
    that launched it, its argument [u] and the captured [post]. It holds one
    permit of its launcher's semaphore and one count of its [fanoutWG]
    until it finishes. *)
Record Task := { owner : nat; uid : string; carried : Post }.

Record State := {
  now : Z;              (* the clock, in milliseconds *)
  done : bool;          (* ctx.Done() is closed *)
  self : Worker;        (* the receiver [w] *)
  retry : Z;            (* readLoop's [retry] *)
  jobs : Chan;
  main : MainPC;
  procs : list ProcPC;  (* the processLoop goroutines, by id *)
  tasks : list Task;
  trace : list Event
}.

Definition fanoutLimit : Z := 20.

(** Lines 46-64 of [Run]: the two fallbacks, [make(chan []byte, n)] and the
    launch of the [processLoop] goroutines. *)
Definition Run_start (w : Worker) : State :=
  let workerCount := if workerCount w <=? 0 then 1 else workerCount w in
  let jobQueueSize := if jobQueueSize w <=? 0 then 10 else jobQueueSize w in
  {| now := 0; done := false;
     self := {| store_ := store_ w; reader := reader w;
                workerCount := workerCount; jobQueueSize := jobQueueSize |};
     retry := 0;
     jobs := make_chan jobQueueSize;
     main := M_Select;
     procs := replicate (Z.to_nat workerCount) P_Select;
     tasks := [];
     trace := [Log Info "Starting workers"] |}.

(** Which case of a [select] fires; [Next] is a step that is no [select]. *)
Inductive Case := CtxDone | Default | Recv | Send | Timer | Next.

Inductive Choice :=
| Cancel                     (* the context is cancelled *)
| Tick                       (* one millisecond passes *)
| Main (c : Case)            (* the goroutine of Run/readLoop moves *)
| Proc (id : nat) (c : Case) (* a processLoop goroutine moves *)
| Go (i : nat).              (* the i-th launched fan-out goroutine runs *)

(** Field updates. *)
Definition set_main (m : MainPC) (ev : list Event) (s : State) : State :=
  {| now := now s; done := done s; self := self s; retry := retry s; jobs := jobs s;
     main := m; procs := procs s; tasks := tasks s; trace := trace s ++ ev |}.

Definition set_retry (r : Z) (s : State) : State :=
  {| now := now s; done := done s; self := self s; retry := r; jobs := jobs s;
     main := main s; procs := procs s; tasks := tasks s; trace := trace s |}.

Definition set_jobs (c : Chan) (s : State) : State :=
  {| now := now s; done := done s; self := self s; retry := retry s; jobs := c;
     main := main s; procs := procs s; tasks := tasks s; trace := trace s |}.

Definition set_reader (rd : R) (s : State) : State :=
  {| now := now s; done := done s;
     self := {| store_ := store_ (self s); reader := rd;
                workerCount := workerCount (self s);
                jobQueueSize := jobQueueSize (self s) |};
     retry := retry s; jobs := jobs s;
     main := main s; procs := procs s; tasks := tasks s; trace := trace s |}.

Definition set_store (st : S) (s : State) : State :=
  {| now := now s; done := done s;
     self := {| store_ := st; reader := reader (self s);
                workerCount := workerCount (self s);
                jobQueueSize := jobQueueSize (self s) |};
     retry := retry s; jobs := jobs s;
     main := main s; procs := procs s; tasks := tasks s; trace := trace s |}.

Definition set_proc (id : nat) (p : ProcPC) (ev : list Event) (s : State) : State :=
  {| now := now s; done := done s; self := self s; retry := retry s; jobs := jobs s;
     main := main s; procs := <[id := p]> (procs s); tasks := tasks s;
     trace := trace s ++ ev |}.

Definition set_tasks (ts : list Task) (s : State) : State :=
  {| now := now s; done := done s; self := self s; retry := retry s; jobs := jobs s;
     main := main s; procs := procs s; tasks := ts; trace := trace s |}.

Definition emit (ev : list Event) (s : State) : State :=
  set_main (main s) ev s.

Definition is_returned (p : ProcPC) : bool :=
  match p with P_Returned => true | _ => false end.

(** The launched goroutines of one [processLoop]: the permits of its
    semaphore in use, and its [fanoutWG] count once it stands at [Wait]. *)
Definition owned (id : nat) (s : State) : list Task :=
  filter (λ t, owner t = id) (tasks s).

(** [waitWithContext(ctx, d)] for a timer that fires at [deadline]: [Some
    false] when the case [<-ctx.Done()] fires, [Some true] when [<-timer.C]
    does, [None] when the chosen case is not ready. *)
Definition waitWithContext (deadline : Z) (c : Case) (s : State) : option bool :=
  match c with
  | CtxDone => if done s then Some false else None
  | Timer => if deadline <=? now s then Some true else None
  | _ => None
  end.

(** [readLoop], one step; a return leaves the goroutine at [M_Close]. *)
Definition readLoop (c : Case) (s : State) : option State :=
  match main s, c with
  | M_Select, CtxDone =>
      if done s then Some (set_main M_Close [] s) else None
  | M_Select, Default =>
      if done s then None else Some (set_main M_Read [] s)
  | M_Read, Next =>
      let '(rd, (msg, err)) := appkafka.ReadMessage (done s) (reader (self s)) in
      let s := set_reader rd s in
      match err with
      | Some _ =>
          Some (set_main (M_Backoff (now s + backoff (retry s)))
                  [CallReadMessage (appkafka.Value msg) true;
                   Log Error "Kafka read error, backing off"] s)
      | None =>
          let s := set_retry 0 s in
          match appkafka.Value msg with
          | [] => Some (set_main (M_Idle (now s + 50)) [CallReadMessage [] false] s)
          | v => Some (set_main (M_Push v (now s + 100)) [CallReadMessage v false] s)
          end
      end
  | M_Backoff d, c =>
      match waitWithContext d c s with
      | Some false => Some (set_main M_Close [] s)
      | Some true => Some (set_main M_Select [] (set_retry (wrap (retry s + 1)) s))
      | None => None
      end
  | M_Idle d, c =>
      match waitWithContext d c s with
      | Some false => Some (set_main M_Close [] s)
      | Some true => Some (set_main M_Select [] s)
      | None => None
      end
  | M_Push v d, Send =>
      if closed (jobs s) then None (* a send on a closed channel panics *)
      else if Z.of_nat (length (buf (jobs s))) <? cap (jobs s)
      then Some (set_main M_Select [Enqueue v]
                   (set_jobs {| buf := buf (jobs s) ++ [v]; cap := cap (jobs s);
                                closed := closed (jobs s) |} s))
      else None
  | M_Push v d, CtxDone =>
      if done s then Some (set_main M_Close [] s) else None
  | M_Push v d, Timer =>
      if d <=? now s
      then Some (set_main M_Select
                   [Log Info "Queue full, waiting to enqueue Kafka message"] s)
      else None
  | _, _ => None
  end.

(** [Run] after the launch of the [processLoop] goroutines: [readLoop],
    then [close(jobs)], [wg.Wait()] and the return. *)
Definition Run (c : Case) (s : State) : option State :=
  match main s, c with
  | M_Close, Next =>
      if closed (jobs s) then None (* the close of a closed channel panics *)
      else Some (set_main M_Wait [CloseJobs]
                   (set_jobs {| buf := buf (jobs s); cap := cap (jobs s);
                                closed := true |} s))
  | M_Wait, Next =>
      if forallb is_returned (procs s)
      then Some (set_main M_Done [Log Info "All workers stopped gracefully"] s)
      else None
  | (M_Close | M_Wait | M_Done), _ => None
  | _, _ => readLoop c s
  end.

(** The two ways the goroutine of [Run] can panic on [jobs]. *)
Definition panics (c : Case) (s : State) : bool :=
  match main s, c with
  | M_Push _ _, Send => closed (jobs s)
  | M_Close, Next => closed (jobs s)
  | _, _ => false
  end.

(** [processLoop], for the goroutine [id] standing at [p]. *)
Definition processLoop (id : nat) (p : ProcPC) (c : Case) (s : State) : option State :=
  match p, c with
  | P_Select, CtxDone =>
      if done s then Some (set_proc id P_Returned [WorkerReturn id] s) else None
  | P_Select, Recv =>
      match buf (jobs s) with
      | data :: rest =>
          let s := set_jobs {| buf := rest; cap := cap (jobs s);
                               closed := closed (jobs s) |} s in
          match json.Unmarshal data with
          | None =>
              Some (set_proc id P_Select
                      [Dequeue id data; Log Error "Invalid JSON in Kafka message"] s)
          | Some post => Some (set_proc id (P_Fetch post) [Dequeue id data] s)
          end
      | [] =>
          if closed (jobs s)
          then Some (set_proc id P_Returned [WorkerReturn id] s)
          else None
      end
  | P_Fetch post, Next =>
      let '(st, (followers, err)) := store.GetFollowers (AuthorID post) (store_ (self s)) in
      let s := set_store st s in
      match err with
      | Some _ =>
          Some (set_proc id P_Select
                  [CallGetFollowers id (AuthorID post) true;
                   Log Error "Error fetching followers for post author"] s)
      | None =>
          Some (set_proc id (P_Range post followers)
                  [CallGetFollowers id (AuthorID post) false] s)
      end
  | P_Range post [], Next => Some (set_proc id (P_Wait post) [] s)
  | P_Range post (u :: rest), CtxDone =>
      if done s then Some (set_proc id P_Returned [WorkerReturn id] s) else None
  | P_Range post (u :: rest), Default =>
      if done s then None else Some (set_proc id (P_Acquire post u rest) [] s)
  | P_Acquire post u rest, Send =>
      if Z.of_nat (length (owned id s)) <? fanoutLimit
      then Some (set_proc id (P_Range post rest) []
                   (set_tasks (tasks s ++ [{| owner := id; uid := u; carried := post |}]) s))
      else None
  | P_Wait post, Next =>
      match owned id s with
      | [] => Some (set_proc id P_Select
                      [Log Info "Post delivered to followers (post ID anonymized)"] s)
      | _ => None
      end
  | _, _ => None
  end.

(** The body of a launched fan-out goroutine: the call of [AddToFeed],
    then the deferred release of the permit and [fanoutWG.Done()]. *)
Definition go_func (i : nat) (s : State) : option State :=
  match tasks s !! i with
  | Some t =>
      let '(st, err) := store.AddToFeed (uid t) (carried t) (store_ (self s)) in
      let s := set_tasks (delete i (tasks s)) (set_store st s) in
      match err with
      | Some _ =>
          Some (emit [CallAddToFeed (owner t) (uid t) (carried t) true;
                      Log Error "Failed to add post to user feed"] s)
      | None =>
          Some (emit [CallAddToFeed (owner t) (uid t) (carried t) false] s)
      end
  | None => None
  end.

Definition step (c : Choice) (s : State) : option State :=
  match c with
  | Cancel =>
      Some {| now := now s; done := true; self := self s; retry := retry s;
              jobs := jobs s; main := main s; procs := procs s; tasks := tasks s;
              trace := trace s |}
  | Tick =>
      Some {| now := now s + 1; done := done s; self := self s; retry := retry s;
              jobs := jobs s; main := main s; procs := procs s; tasks := tasks s;
              trace := trace s |}
  | Main c => Run c s
  | Proc id c =>
      match procs s !! id with
      | Some p => processLoop id p c s
      | None => None
      end
  | Go i => go_func i s
  end.

(** A schedule runs choice by choice; a choice that is not enabled is
    skipped. *)
Fixpoint exec (sched : list Choice) (s : State) : State :=
  match sched with
  | [] => s
  | c :: sched =>
      match step c s with
      | Some s' => exec sched s'
      | None => exec sched s
      end
  end.

(** The [AddToFeed] calls made on behalf of the [processLoop] [id]. *)
Fixpoint calls (id : nat) (tr : list Event) : list (string * Post) :=
  match tr with
  | [] => []
  | CallAddToFeed id' u p _ :: tr =>
      if decide (id' = id) then (u, p) :: calls id tr else calls id tr
  | _ :: tr => calls id tr
  end.

Definition is_close (e : Event) : bool :=
  match e with CloseJobs => true | _ => false end.

Definition is_enqueue (e : Event) : bool :=
  match e with Enqueue _ => true | _ => false end.

Definition is_read (e : Event) : bool :=
  match e with CallReadMessage _ _ => true | _ => false end.

(** What follows the close of [jobs] in a trace, if it was closed. *)
Fixpoint after_close (tr : list Event) : option (list Event) :=
  match tr with
  | [] => None
  | CloseJobs :: tr => Some tr
  | _ :: tr => after_close tr
  end.

(** [readLoop] has returned to [Run]. *)
Definition readLoop_returned (m : MainPC) : bool :=
  match m with M_Close | M_Wait | M_Done => true | _ => false end.

(** [Run] is past [close(jobs)]. *)
Definition past_close (m : MainPC) : bool :=
  match m with M_Wait | M_Done => true | _ => false end.

(** A [processLoop] that is between two fan-outs. *)
Definition idle (p : ProcPC) : bool :=
  match p with P_Select | P_Fetch _ => true | _ => false end.

(** The followers a [processLoop] has still to dispatch in its fan-out. *)
Definition todo (p : ProcPC) : list string :=
  match p with
  | P_Range _ rest => rest
  | P_Acquire _ u rest => u :: rest
  | _ => []
  end.

(** The post a [processLoop] is fanning out. *)
Definition serving (p : ProcPC) : option Post :=
  match p with
  | P_Range post _ | P_Acquire post _ _ | P_Wait post => Some post
  | _ => None
  end.

(** The calls the launched goroutines will make. *)
Definition pending (ts : list Task) : list (string * Post) :=
  map (λ t, (uid t, carried t)) ts.

(** The calls that deliver [post] to the followers [F]. *)
Definition deliveries (post : Post) (F : list string) : list (string * Post) :=
  map (λ u, (u, post)) F.

(** A schedule that brings the fan-out of the [processLoop] [id], standing
    at [p] with [n] goroutines launched by anyone, to its end: the launched
    goroutines run, then each remaining follower is dispatched and its
    goroutine runs, then the wait returns. *)
Definition dispatch_all (id : nat) (rest : list string) : list Choice :=
  flat_map (λ _, [Proc id Default; Proc id Send; Go 0]) rest
  ++ [Proc id Next; Proc id Next].

Definition finish (id : nat) (p : ProcPC) (n : nat) : list Choice :=
  replicate n (Go 0) ++
  match p with
  | P_Range _ rest => dispatch_all id rest
  | P_Acquire _ _ rest => [Proc id Send; Go 0] ++ dispatch_all id rest
  | P_Wait _ => [Proc id Next]
  | _ => []
  end.

(** How many events of a kind a trace holds. *)
Definition count (k : Event → bool) (tr : list Event) : nat :=
  length (filter (λ e, k e = true) tr).

(** The invariant of the runs of [Run]. *)
Record Inv (s : State) : Prop := {
  inv_closed : closed (jobs s) = past_close (main s);
  inv_count : count is_close (trace s) = if closed (jobs s) then 1%nat else 0%nat;
  inv_after :
    match after_close (trace s) with
    | Some post =>
        closed (jobs s) = true ∧ count is_enqueue post = 0%nat ∧
        count is_read post = 0%nat ∧ count is_close post = 0%nat
    | None => closed (jobs s) = false
    end;
  inv_cancelled : readLoop_returned (main s) = true → done s = true;
  inv_joined : main s = M_Done → Forall (λ p, p = P_Returned) (procs s);
  inv_proc_returned : ∀ id, procs s !! id = Some P_Returned → done s = true;
  inv_quiet : ∀ id p, procs s !! id = Some p → idle p = true → owned id s = [];
  inv_permits : ∀ id, Z.of_nat (length (owned id s)) ≤ fanoutLimit
}.

(** The state of the fan-out of [post] to the followers [F] by the
    [processLoop] [id], which had made the calls [base] before: the calls
    made since, those of the launched goroutines and those of the followers
    still to dispatch are together the deliveries of [post] to [F]. *)
Definition Fanout (id : nat) (base : list (string * Post)) (post : Post)
    (F : list string) (s : State) : Prop :=
  ∃ p new,
    procs s !! id = Some p ∧
    calls id (trace s) = base ++ new ∧
    new ++ pending (owned id s) ++ deliveries post (todo p) ≡ₚ deliveries post F ∧
    (serving p = Some post ∨ p = P_Select ∧ owned id s = []).

End Worker.

Arguments Worker : clear implicits.
Arguments State : clear implicits.

(** What a Go call does: it returns a value or it panics. *)
Inductive Outcome (A : Type) :=
| Returns (a : A)
| Panics.
Arguments Returns {A} a.
Arguments Panics {A}.

(** ** Test doubles *)

(** [MockStore] of internal/store/mock_store.go. *)
Module mock_store.
Record MockStore := {
  Users : gmap string string;
  Followers : gmap string (list string);
  Feed : gmap string (list Post);
  Posts : gmap string Post;
  ShouldFail : bool
}.

Definition NewMock : MockStore :=
  {| Users := ∅; Followers := ∅; Feed := ∅; Posts := ∅; ShouldFail := false |}.

Definition CreateFollow (followerID followeeID : string) (m : MockStore)
  : MockStore * option error :=
  if ShouldFail m then (m, Some "mock: follow failed")
  else ({| Users := Users m;
           Followers := <[followeeID := default [] (Followers m !! followeeID) ++ [followerID]]>
                          (Followers m);
           Feed := Feed m; Posts := Posts m; ShouldFail := ShouldFail m |}, None).

Definition GetFollowers (userID : string) (m : MockStore)
  : MockStore * (list string * option error) :=
  if ShouldFail m then (m, ([], Some "mock: get followers failed"))
  else (m, (default [] (Followers m !! userID), None)).

Definition AddToFeed (userID : string) (post : Post) (m : MockStore)
  : MockStore * option error :=
  if ShouldFail m then (m, Some "mock: add to feed failed")
  else ({| Users := Users m; Followers := Followers m;
           Feed := <[userID := default [] (Feed m !! userID) ++ [post]]> (Feed m);
           Posts := Posts m; ShouldFail := ShouldFail m |}, None).

Definition Close (m : MockStore) : MockStore := m.

(** [CreateUser]; [counter] is the package variable [mockUserCounter], and
    [pretty] prints it as [%d] does. *)
Definition CreateUser (username : string) (counter : Z) (m : MockStore)
  : Z * MockStore * (string * option error) :=
  if ShouldFail m then (counter, m, (String.EmptyString, Some "mock: create user failed"))
  else
    let counter := wrap (counter + 1) in
    let id := "user_" +:+ pretty counter in
    (counter,
     {| Users := <[id := username]> (Users m); Followers := Followers m;
        Feed := Feed m; Posts := Posts m; ShouldFail := ShouldFail m |},
     (id, None)).

Definition AddPost (post : Post) (m : MockStore) : MockStore * option error :=
  if ShouldFail m then (m, Some "mock: add post failed")
  else ({| Users := Users m; Followers := Followers m; Feed := Feed m;
           Posts := <[ID post := post]> (Posts m); ShouldFail := ShouldFail m |}, None).

(** [GetFeed]: [posts[:limit]] panics when [limit] is negative. *)
Definition GetFeed (userID : string) (limit : Z) (m : MockStore)
  : Outcome (list Post * option error) :=
  if ShouldFail m then Returns ([], Some "mock: get feed failed")
  else
    let posts := default [] (Feed m !! userID) in
    if limit <? Z.of_nat (length posts)
    then if limit <? 0 then Panics
         else Returns (take (Z.to_nat limit) posts, None)
    else Returns (posts, None).

(** [MockStore] as the worker's store. The worker's machine runs each
    store call as one step, which is what a store that is safe for
    concurrent use gives. A [MockStore] is not: [AddToFeed] writes the map
    [Feed] without a lock. The step is its behaviour only where no two of
    its calls overlap: when the calls are made one after the other, or when
    the worker never has two fan-out goroutines in flight. *)
#[global] Instance MockStore_StoreInterface : store.StoreInterface MockStore :=
  {| store.GetFollowers := GetFollowers;
     store.AddToFeed := AddToFeed;
     store.Close := Close |}.
End mock_store.

(** [MockKafkaReader] of the worker's shutdown test. *)
Module mock_reader.
Record MockKafkaReader := {
  Messages : list appkafka.Message;
  ShouldFail : bool;
  Closed : bool
}.

Definition empty : appkafka.Message := {| appkafka.Value := [] |}.

(** [ctx.Err()] is nil until the context is done. *)
Definition ctx_Err (ctx_done : bool) : option error :=
  if ctx_done then Some "context canceled" else None.

Definition ReadMessage (ctx_done : bool) (m : MockKafkaReader)
  : MockKafkaReader * (appkafka.Message * option error) :=
  if ShouldFail m then (m, (empty, ctx_Err ctx_done))
  else if ctx_done then (m, (empty, ctx_Err ctx_done))
  else match Messages m with
       | [] => (m, (empty, None))
       | msg :: rest =>
           ({| Messages := rest; ShouldFail := ShouldFail m; Closed := Closed m |},
            (msg, None))
       end.

Definition Close (m : MockKafkaReader) : MockKafkaReader * option error :=
  ({| Messages := Messages m; ShouldFail := ShouldFail m; Closed := true |}, None).

#[global] Instance MockKafkaReader_KafkaReader : appkafka.KafkaReader MockKafkaReader :=
  {| appkafka.ReadMessage := ReadMessage; appkafka.Close := Close |}.
End mock_reader.

(** A reader whose connection is gone: every read and the close fail, as
    [RealKafkaReader] does when the underlying [kafka.Reader] reports an
    error. *)
Module broken_reader.
Definition ReadMessage (ctx_done : bool) (r : unit) : unit * (appkafka.Message * option error) :=
  (r, (mock_reader.empty, Some "connection refused")).
Definition Close (r : unit) : unit * option error := (r, Some "close failed").

#[global] Instance broken_KafkaReader : appkafka.KafkaReader unit :=
  {| appkafka.ReadMessage := ReadMessage; appkafka.Close := Close |}.
End broken_reader.

(** [MockKafka] of internal/broker/mock_kafka.go, the double that keeps what
    is written and serves [ReadMessages] as a queue. *)
Module mock_kafka.
Record MockKafka := {
  WrittenMessages : list appkafka.Message;
  ReadMessages : list appkafka.Message;
  ShouldFail : bool
}.

Definition WriteMessages (messages : list appkafka.Message) (m : MockKafka)
  : MockKafka * option error :=
  if ShouldFail m then (m, Some "mock kafka write error")
  else ({| WrittenMessages := WrittenMessages m ++ messages;
           ReadMessages := ReadMessages m; ShouldFail := ShouldFail m |}, None).

(** The context is not looked at. *)
Definition ReadMessage (ctx_done : bool) (m : MockKafka)
  : MockKafka * (appkafka.Message * option error) :=
  if ShouldFail m then (m, (mock_reader.empty, Some "mock kafka read error"))
  else match ReadMessages m with
       | [] => (m, (mock_reader.empty, None))
       | msg :: rest =>
           ({| WrittenMessages := WrittenMessages m; ReadMessages := rest;
               ShouldFail := ShouldFail m |}, (msg, None))
       end.

Definition Close (m : MockKafka) : MockKafka * option error := (m, None).

#[global] Instance MockKafka_KafkaReader : appkafka.KafkaReader MockKafka :=
  {| appkafka.ReadMessage := ReadMessage; appkafka.Close := Close |}.

(** [n] calls of [ReadMessage] in a row, with what each returned. *)
Fixpoint read_n (n : nat) (ctx_done : bool) (m : MockKafka)
  : MockKafka * list (appkafka.Message * option error) :=
  match n with
  | O => (m, [])
  | Datatypes.S n =>
      let '(m, r) := ReadMessage ctx_done m in
      let '(m, rs) := read_n n ctx_done m in
      (m, r :: rs)
  end.

(** One call of [WriteMessages] for each batch, errors ignored. *)
Definition write_all (batches : list (list appkafka.Message)) (m : MockKafka) : MockKafka :=
  foldl (λ m batch, (WriteMessages batch m).1) m batches.
End mock_kafka.

(** ** [runWorkerOnce] of the worker's tests (cmd/worker/worker_test.go) *)

Module worker_test.
Section runWorkerOnce.
Context {S R : Type}.
Context `{HS : !store.StoreInterface S, HR : !appkafka.KafkaReader R, HD : !json.Decoder}.

(** The loop over the followers: it returns at the first [AddToFeed] that
    fails. *)
Fixpoint add_each (followers : list string) (post : Post) (st : S) : S * option error :=
  match followers with
  | [] => (st, None)
  | uid :: followers =>
      let '(st, err) := store.AddToFeed uid post st in
      match err with
      | Some e => (st, Some e)
      | None => add_each followers post st
      end
  end.

(** The error of [json.Unmarshal] is kept as a fixed text. *)
Definition runWorkerOnce (ctx_done : bool) (st : S) (kafkaReader : R)
  : S * R * option error :=
  let '(kafkaReader, (msg, err)) := appkafka.ReadMessage ctx_done kafkaReader in
  match err with
  | Some e => (st, kafkaReader, Some e)
  | None =>
      match appkafka.Value msg with
      | [] => (st, kafkaReader, None)
      | _ :: _ =>
          match json.Unmarshal (appkafka.Value msg) with
          | None => (st, kafkaReader, Some "json: cannot unmarshal")
          | Some post =>
              let '(st, (followers, err)) := store.GetFollowers (AuthorID post) st in
              match err with
              | Some e => (st, kafkaReader, Some e)
              | None =>
                  let '(st, err) := add_each followers post st in
                  (st, kafkaReader, err)
              end
          end
      end
  end.
End runWorkerOnce.
End worker_test.

(** ** package middleware: [JWTAuth] (internal/middleware/auth.go) *)

Module middleware.
(** A value of type [any], as far as the type assertion [.(string)] tells
    values apart. *)
Inductive Any :=
| AString (s : string)
| AOther.

(** [context.Context], as the values it carries, the latest binding first. *)
Definition Context : Type := list (string * Any).

Definition UserCtxKey : string := "user_id".

Definition WithValue (ctx : Context) (key : string) (v : Any) : Context := (key, v) :: ctx.

Fixpoint Value (ctx : Context) (key : string) : option Any :=
  match ctx with
  | [] => None
  | (k, v) :: ctx => if decide (k = key) then Some v else Value ctx key
  end.

Definition UserIDFromContext (ctx : Context) : string * bool :=
  match Value ctx UserCtxKey with
  | Some (AString id) => (id, true)
  | _ => (String.EmptyString, false)
  end.

(** [strings.SplitN(s, sep, 2)] with the separator " ": the text before the
    first space and the text after it, or [s] alone when it has no space. *)
Fixpoint cut (s : string) : option (string * string) :=
  match s with
  | String.EmptyString => None
  | String.String a rest =>
      if Ascii.eqb a Ascii.Space
      then Some (String.EmptyString, rest)
      else match cut rest with
           | Some (before, after) => Some (String.String a before, after)
           | None => None
           end
  end.

Definition SplitN2 (s : string) : list string :=
  match cut s with
  | Some (before, after) => [before; after]
  | None => [s]
  end.

(** [*jwt.Token] as [JWTAuth] reads it; [Claims] is [None] when the claims
    are not [jwt.MapClaims]. *)
Record Token := {
  Valid : bool;
  Claims : option (gmap string Any)
}.

Definition StatusUnauthorized : Z := 401.

Section JWTAuth.
Context {Resp : Type}.
(** [http.Error(w, msg, code)] as the response it writes. *)
Variable http_Error : string → Z → Resp.
(** [jwt.Parse] with the key function of [JWTAuth] (HMAC methods only, the
    secret of the environment): [None] for a non-nil error. *)
Variable Parse : string → option Token.

Definition JWTAuth (next : Context → Resp) (authHeader : string) (ctx : Context) : Resp :=
  if decide (authHeader = String.EmptyString)
  then http_Error "missing Authorization header" StatusUnauthorized
  else
    match SplitN2 authHeader with
    | [scheme; credentials] =>
        if decide (scheme = "Bearer") then
          match Parse credentials with
          | None => http_Error "invalid token" StatusUnauthorized
          | Some token =>
              if negb (Valid token) then http_Error "invalid token" StatusUnauthorized
              else
                match Claims token with
                | None => http_Error "invalid token claims" StatusUnauthorized
                | Some claims =>
                    match claims !! "user_id" with
                    | Some (AString userID) =>
                        next (WithValue ctx UserCtxKey (AString userID))
                    | _ => http_Error "invalid user_id in token" StatusUnauthorized
                    end
                end
          end
        else http_Error "invalid Authorization header" StatusUnauthorized
    | _ => http_Error "invalid Authorization header" StatusUnauthorized
    end.
End JWTAuth.
End middleware.

(** ** package server: the feed route (cmd/server/httphandlers.go), on a
    [MockStore] as in the server's tests *)

Module server.
Import mock_store middleware.

Inductive Response :=
| HttpError (msg : string) (code : Z)
| Json (feed : list Post).

Definition StatusInternalServerError : Z := 500.

Section Handlers.
(** [strconv.Atoi]: [None] for a non-nil error. *)
Variable Atoi : string → option Z.
Variable Parse : string → option Token.

(** The [limit] of [getFeedHandler]. *)
Definition feed_limit (limitStr : string) : Z :=
  if decide (limitStr = String.EmptyString) then 50
  else match Atoi limitStr with
       | Some l => if 0 <? l then l else 50
       | None => 50
       end.

Definition getFeedHandler (limitStr : string) (st : MockStore) (ctx : Context)
  : Outcome Response :=
  let '(userID, ok) := UserIDFromContext ctx in
  if negb ok then Returns (HttpError "unauthorized" StatusUnauthorized)
  else
    match GetFeed userID (feed_limit limitStr) st with
    | Panics => Panics
    | Returns (_, Some err) => Returns (HttpError err StatusInternalServerError)
    | Returns (feed, None) => Returns (Json feed)
    end.

(** The route [/feed]: [JWTAuth] around [getFeedHandler], on a request with
    the header [Authorization: authHeader], the query [limit=limitStr] and
    an empty context. *)
Definition feed_route (authHeader limitStr : string) (st : MockStore) : Outcome Response :=
  JWTAuth (λ msg code, Returns (HttpError msg code)) Parse
    (getFeedHandler limitStr st) authHeader [].
End Handlers.
End server.

(** ** Concrete inputs for the examples *)

Module demo.
Import mock_store mock_reader.

(** A decoder for the examples, for payloads of the shape [{a:body]: one
    byte [a] for the author, the rest for the body. *)
Definition Unmarshal (data : bytes) : option Post :=
  match data with
  | "{"%byte :: a :: ":"%byte :: rest =>
      Some {| ID := "100"; AuthorID := String.string_of_list_byte [a];
              Body := String.string_of_list_byte rest; Created := 0 |}
  | _ => None
  end.

#[global] Instance demo_Decoder : json.Decoder := {| json.Unmarshal := Unmarshal |}.

Definition good : bytes := String.list_byte_of_string "{1:hello}".
Definition bad : bytes := String.list_byte_of_string "{not valid json}".

Definition post : Post :=
  {| ID := "100"; AuthorID := "1"; Body := "hello}"; Created := 0 |}.

(** Author "1" has the followers "2" and "3". *)
Definition st : MockStore :=
  {| Users := ∅; Followers := {[ "1" := ["2"; "3"] ]}; Feed := ∅; Posts := ∅;
     mock_store.ShouldFail := false |}.

Definition rd (msgs : list bytes) : MockKafkaReader :=
  {| Messages := map (λ v, {| appkafka.Value := v |}) msgs;
     mock_reader.ShouldFail := false; Closed := false |}.

(** The worker of the shutdown test: built without [New]. *)
Definition w (msgs : list bytes) : Worker MockStore MockKafkaReader :=
  {| store_ := st; reader := rd msgs; workerCount := 0; jobQueueSize := 0 |}.

(** One [processLoop] and room for one payload. *)
Definition w_small (msgs : list bytes) : Worker MockStore MockKafkaReader :=
  {| store_ := st; reader := rd msgs; workerCount := 1; jobQueueSize := 1 |}.

(** A store that fails every call. *)
Definition st_failing : MockStore :=
  {| Users := ∅; Followers := {[ "1" := ["2"; "3"] ]}; Feed := ∅; Posts := ∅;
     mock_store.ShouldFail := true |}.

Definition w_failing (msgs : list bytes) : Worker MockStore MockKafkaReader :=
  {| store_ := st_failing; reader := rd msgs; workerCount := 1; jobQueueSize := 1 |}.

(** A worker whose reader cannot be closed. *)
Definition w_broken : Worker MockStore unit :=
  {| store_ := st; reader := tt; workerCount := 1; jobQueueSize := 10 |}.

(** [readLoop] reads one payload and enqueues it; a [processLoop] takes
    and decodes it. *)
Definition until_fetch : list Choice :=
  [Main Default; Main Next; Main Send; Proc 0 Recv].

(** The fan-out to two followers, one goroutine after the other. *)
Definition fanout_two : list Choice :=
  [Proc 0 Default; Proc 0 Send; Go 0; Proc 0 Default; Proc 0 Send; Go 0;
   Proc 0 Next; Proc 0 Next].

(** The context is cancelled when the first follower has been dispatched
    and its goroutine has not run yet; then everything returns. *)
Definition cancel_mid_fanout : list Choice :=
  until_fetch ++
  [Proc 0 Next; Proc 0 Default; Proc 0 Send; Cancel; Proc 0 CtxDone;
   Main CtxDone; Main Next; Main Next].

(** The context is cancelled while a payload sits in the buffer. *)
Definition cancel_with_payload_buffered : list Choice :=
  [Main Default; Main Next; Main Send; Cancel; Proc 0 CtxDone;
   Main CtxDone; Main Next; Main Next].

(** Two payloads are read; the first fills the buffer, the second waits at
    the push while 100 milliseconds pass. *)
Definition second_push_times_out : list Choice :=
  [Main Default; Main Next; Main Send; Main Default; Main Next] ++ replicate 100 Tick.

(** [readLoop] is about to read the only message. *)
Definition at_read : State MockStore MockKafkaReader :=
  exec [Main Default] (Run_start (w [good])).

(** The buffer of capacity 1 is full and the second payload has waited
    100 milliseconds at the push. *)
Definition at_full_push : State MockStore MockKafkaReader :=
  exec second_push_times_out (Run_start (w_small [good; good])).

(** A malformed payload and a good one are in the buffer. *)
Definition at_bad_payload : State MockStore MockKafkaReader :=
  exec [Main Default; Main Next; Main Send; Main Default; Main Next; Main Send]
    (Run_start (w [bad; good])).

(** A post is decoded and the store will fail the fetch. *)
Definition at_failing_fetch : State MockStore MockKafkaReader :=
  exec until_fetch (Run_start (w_failing [good])).
(** Author "1" is followed twice by "2". *)
Definition st_twice : MockStore :=
  {| Users := ∅; Followers := {[ "1" := ["2"; "2"] ]}; Feed := ∅; Posts := ∅;
     mock_store.ShouldFail := false |}.

(** Author "1" has the one follower "2". *)
Definition st_single : MockStore :=
  {| Users := ∅; Followers := {[ "1" := ["2"] ]}; Feed := ∅; Posts := ∅;
     mock_store.ShouldFail := false |}.

(** One [processLoop] on that store. *)
Definition w_single (msgs : list bytes) : Worker MockStore MockKafkaReader :=
  {| store_ := st_single; reader := rd msgs; workerCount := 1; jobQueueSize := 1 |}.

(** The fan-out to one follower. *)
Definition fanout_one : list Choice :=
  [Proc 0 Default; Proc 0 Send; Go 0; Proc 0 Next; Proc 0 Next].

(** A reader that fails every read, run until [readLoop] is about to read
    for the third time. *)
Definition two_failures : list Choice :=
  [Main Default; Main Next; Tick; Main Timer; Main Default; Main Next;
   Tick; Tick; Main Timer; Main Default].

(** A [MockKafka] with the good payload queued. *)
Definition kafka (msgs : list bytes) : mock_kafka.MockKafka :=
  {| mock_kafka.WrittenMessages := [];
     mock_kafka.ReadMessages := map (λ v, {| appkafka.Value := v |}) msgs;
     mock_kafka.ShouldFail := false |}.

(** A token of user "2", and a parser that accepts the text "t2" only. *)
Definition token2 : middleware.Token :=
  {| middleware.Valid := true;
     middleware.Claims := Some {[ "user_id" := middleware.AString "2" ]} |}.

Definition Parse (t : string) : option middleware.Token :=
  if decide (t = "t2") then Some token2 else None.
End demo.

(** A store whose writes are refused: [GetFollowers] answers as the
    [MockStore] does and every [AddToFeed] fails. *)
Module read_only_store.
Record ReadOnly := { inner : mock_store.MockStore }.

Definition GetFollowers (userID : string) (m : ReadOnly)
  : ReadOnly * (list string * option error) :=
  (m, (mock_store.GetFollowers userID (inner m)).2).

Definition AddToFeed (userID : string) (post : Post) (m : ReadOnly)
  : ReadOnly * option error := (m, Some "write refused").

#[global] Instance ReadOnly_StoreInterface : store.StoreInterface ReadOnly :=
  {| store.GetFollowers := GetFollowers;
     store.AddToFeed := AddToFeed;
     store.Close := λ m, m |}.

(** A worker on such a store, where author "1" is followed twice by "2". *)
Definition w_twice (msgs : list bytes) : Worker ReadOnly mock_reader.MockKafkaReader :=
  {| store_ := {| inner := demo.st_twice |}; reader := demo.rd msgs;
     workerCount := 0; jobQueueSize := 0 |}.
End read_only_store.
(** ** What a trace says about the payloads and the reads *)

(** The payloads sent on [jobs], in order. *)
Definition enqueued (tr : list Event) : list bytes :=
  omap (λ e, match e with Enqueue v => Some v | _ => None end) tr.

(** The payloads received from [jobs] by any [processLoop], in order. *)
Definition dequeued (tr : list Event) : list bytes :=
  omap (λ e, match e with Dequeue _ v => Some v | _ => None end) tr.

(** The non-empty values [ReadMessage] returned without error, in order. *)
Definition accepted (tr : list Event) : list bytes :=
  omap (λ e, match e with
             | CallReadMessage (b :: v) false => Some (b :: v)
             | _ => None
             end) tr.

(** The payload [readLoop] is trying to send. *)
Definition pushing (m : MainPC) : list bytes :=
  match m with M_Push v _ => [v] | _ => [] end.

(** How many reads have failed in a row at the end of a trace. *)
Definition failures_in_a_row (tr : list Event) : nat :=
  foldl (λ n e, match e with
                | CallReadMessage _ true => Datatypes.S n
                | CallReadMessage _ false => 0%nat
                | _ => n
                end) 0%nat tr.

(** [retry] after [n] increments from zero. *)
Definition retry_after (n : nat) : Z := Nat.iter n (λ r, wrap (r + 1)) 0.

(** The flow of payloads through a run: the buffer is within its capacity,
    the payloads sent are those received followed by those buffered, and the
    payloads sent or being sent were read, in that order. *)
Definition Flow {S R : Type} (s : State S R) : Prop :=
  Z.of_nat (length (buf (jobs s))) ≤ cap (jobs s) ∧
  enqueued (trace s) = dequeued (trace s) ++ buf (jobs s) ∧
  (enqueued (trace s) ++ pushing (main s)) `sublist_of` accepted (trace s).

(** The posts written to the feed of [u]: the [AddToFeed] calls for [u]
    that did not fail, in order. *)
Definition delivered (u : string) (tr : list Event) : list Post :=
  omap (λ e, match e with
             | CallAddToFeed _ u' p false => if decide (u' = u) then Some p else None
             | _ => None
             end) tr.

(** Every [AddToFeed] call of the trace failed, or none did, as [flag] says. *)
Definition flagged (flag : bool) (tr : list Event) : Prop :=
  Forall (λ e, match e with CallAddToFeed _ _ _ f => f = flag | _ => True end) tr.

(** A run of the worker on a [MockStore] that started as [m0]: only the
    feeds have changed, each by the posts delivered to it. *)
Definition MockRun {R : Type} (m0 : mock_store.MockStore)
    (s : State mock_store.MockStore R) : Prop :=
  mock_store.Users (store_ (self s)) = mock_store.Users m0 ∧
  mock_store.Followers (store_ (self s)) = mock_store.Followers m0 ∧
  mock_store.Posts (store_ (self s)) = mock_store.Posts m0 ∧
  mock_store.ShouldFail (store_ (self s)) = mock_store.ShouldFail m0 ∧
  flagged (mock_store.ShouldFail m0) (trace s) ∧
  ∀ u, default [] (mock_store.Feed (store_ (self s)) !! u)
       = default [] (mock_store.Feed m0 !! u) ++ delivered u (trace s).

(** The non-empty values of a queue of messages. *)
Definition payloads (msgs : list appkafka.Message) : list bytes :=
  omap (λ m, match appkafka.Value m with [] => None | v => Some v end) msgs.

(** A run of the worker on a [MockKafkaReader] that started as [r0]: the
    flags are as they were, and the values read so far followed by those
    still queued are the values queued at the start. *)
Definition ReaderRun {S : Type} (r0 : mock_reader.MockKafkaReader)
    (s : State S mock_reader.MockKafkaReader) : Prop :=
  mock_reader.ShouldFail (reader (self s)) = mock_reader.ShouldFail r0 ∧
  mock_reader.Closed (reader (self s)) = mock_reader.Closed r0 ∧
  accepted (trace s) ++ payloads (mock_reader.Messages (reader (self s)))
  = payloads (mock_reader.Messages r0).

(** While [readLoop] runs, [retry] is the number of reads that have failed in
    a row; during the wait that follows a failure the last one is not yet
    counted. *)
Definition Retrying {S R : Type} (s : State S R) : Prop :=
  match main s with
  | M_Backoff _ =>
      ∃ n, failures_in_a_row (trace s) = Datatypes.S n ∧ retry s = retry_after n
  | M_Select | M_Read | M_Idle _ | M_Push _ _ =>
      retry s = retry_after (failures_in_a_row (trace s))
  | _ => True
  end.

(** A store call returned a non-nil error. *)
Definition failed (e : option error) : bool :=
  match e with Some _ => true | None => false end.

(** The store calls of the events [ev], made in this order on the store
    [st], give the answers the events report and leave the store [st']. *)
Fixpoint applied {S : Type} `{HS : !store.StoreInterface S}
    (ev : list Event) (st st' : S) : Prop :=
  match ev with
  | [] => st' = st
  | CallGetFollowers _ a f :: ev =>
      f = failed (store.GetFollowers a st).2.2 ∧
      applied ev (store.GetFollowers a st).1 st'
  | CallAddToFeed _ u p f :: ev =>
      f = failed (store.AddToFeed u p st).2 ∧
      applied ev (store.AddToFeed u p st).1 st'
  | CallStoreClose :: ev => applied ev (store.Close st) st'
  | _ :: ev => applied ev st st'
  end.

(** A run of a worker with one [processLoop] on a [MockStore] in which no
    author has more than one follower: at most one fan-out goroutine is in
    flight, so no two calls of [MockStore.AddToFeed] overlap. *)
Definition Serial {R : Type} (s : State mock_store.MockStore R) : Prop :=
  (∀ a, (length (default [] (mock_store.Followers (store_ (self s)) !! a)) ≤ 1)%nat) ∧
  Forall (λ t, owner t = 0%nat) (tasks s) ∧
  ∃ p, procs s = [p] ∧
    match p with
    | P_Select | P_Fetch _ => tasks s = []
    | P_Range _ rest => (length rest + length (tasks s) ≤ 1)%nat
    | P_Acquire _ _ rest => rest = [] ∧ tasks s = []
    | P_Wait _ | P_Returned => (length (tasks s) ≤ 1)%nat
    end.

(** * Properties *)

Section Properties.
Context {S R : Type}.
Context `{HS : !store.StoreInterface S, HR : !appkafka.KafkaReader R, HD : !json.Decoder}.

Implicit Types (s : State S R) (w : Worker S R).

(** *** Arithmetic of [int] and of the delay *)

Lemma wrap_id z : int_min ≤ z ≤ int_max → wrap z = z.
Proof.
  unfold wrap, int_min, int_max. intros Hz.
  rewrite Z.mod_small; lia.
Qed.

Lemma backoff_le_ceiling r : backoff r ≤ 1000.
Proof. unfold backoff. lia. Qed.

Lemma backoff_mono r r' : 0 ≤ r → r ≤ r' → backoff r ≤ backoff r'.
Proof.
  intros Hr Hle. unfold backoff.
  assert (2 ^ r ≤ 2 ^ r') by (apply Z.pow_le_mono_r; lia).
  lia.
Qed.

Lemma backoff_ge_1 r : 0 ≤ r → 1 ≤ backoff r.
Proof.
  intros Hr. unfold backoff.
  assert (0 < 2 ^ r) by (apply Z.pow_pos_nonneg; lia).
  lia.
Qed.

Lemma calls_app id tr1 tr2 : calls id (tr1 ++ tr2) = calls id tr1 ++ calls id tr2.
Proof.
  induction tr1 as [|e tr1 IH]; [done|].
  destruct e; simpl; try apply IH.
  case_decide; simpl; by rewrite IH.
Qed.

Lemma count_app k tr1 tr2 : count k (tr1 ++ tr2) = (count k tr1 + count k tr2)%nat.
Proof. unfold count. by rewrite filter_app, length_app. Qed.

(** *** The constructor and the fallbacks of [Run] *)

(** C9 (as amended): [New] keeps a positive [workerCount] and replaces a
    non-positive one by the number of CPUs; it keeps a positive
    [jobQueueSize] and replaces a non-positive one by ten times the pool
    size, provided that product is representable as an [int]. *)
Theorem New_defaults (NumCPU : Z) (st : S) (rd : R) (workerCount0 jobQueueSize0 : Z) :
  let pool := if workerCount0 <=? 0 then NumCPU else workerCount0 in
  (jobQueueSize0 ≤ 0 → int_min ≤ pool * 10 ≤ int_max) →
  workerCount (New NumCPU st rd workerCount0 jobQueueSize0) = pool ∧
  jobQueueSize (New NumCPU st rd workerCount0 jobQueueSize0)
  = if jobQueueSize0 <=? 0 then 10 * pool else jobQueueSize0.
Proof.
  intros pool Hfit. unfold New. simpl. split; [done|].
  fold pool. destruct (Z.leb_spec jobQueueSize0 0) as [Hle|Hgt]; [|done].
  rewrite wrap_id by auto. lia.
Qed.

(** C10: when a field is still non-positive at the call of [Run], [Run]
    itself puts 1 for the pool size and 10 for the capacity, so at least
    one [processLoop] is started and the channel is buffered; the
    constructor, handed the same fields on a machine with more than one
    CPU, chooses differently. *)
Theorem Run_fallbacks w :
  workerCount w ≤ 0 ∨ jobQueueSize w ≤ 0 →
  (workerCount w ≤ 0 →
     workerCount (self (Run_start w)) = 1 ∧ length (procs (Run_start w)) = 1%nat) ∧
  (jobQueueSize w ≤ 0 →
     jobQueueSize (self (Run_start w)) = 10 ∧ cap (jobs (Run_start w)) = 10) ∧
  (0 < length (procs (Run_start w)))%nat ∧
  0 < cap (jobs (Run_start w)) ∧
  (∀ NumCPU, 1 < NumCPU → NumCPU * 10 ≤ int_max →
     workerCount w ≤ 0 → jobQueueSize w ≤ 0 →
     workerCount (New NumCPU (store_ w) (reader w) (workerCount w) (jobQueueSize w))
       ≠ workerCount (self (Run_start w)) ∧
     jobQueueSize (New NumCPU (store_ w) (reader w) (workerCount w) (jobQueueSize w))
       ≠ jobQueueSize (self (Run_start w))).
Proof.
  intros _. unfold Run_start, New, make_chan. simpl.
  destruct (Z.leb_spec (workerCount w) 0) as [Hw|Hw];
    destruct (Z.leb_spec (jobQueueSize w) 0) as [Hq|Hq];
    rewrite ?length_replicate; repeat split; try lia; try done.
  all: rewrite wrap_id by (unfold int_min, int_max in *; lia); lia.
Qed.

Lemma count_nil k : count k [] = 0%nat.
Proof. done. Qed.

Lemma count_cons k e tr :
  count k (e :: tr) = if k e then Datatypes.S (count k tr) else count k tr.
Proof.
  unfold count. rewrite filter_cons. destruct (k e); by case_decide.
Qed.

Lemma forallb_returned (ps : list ProcPC) :
  forallb is_returned ps = true → Forall (λ p, p = P_Returned) ps.
Proof.
  induction ps as [|p ps IH]; simpl; [by constructor|].
  intros [Hp Hps]%andb_true_iff. constructor; [by destruct p|auto].
Qed.

(** *** One step of the machine *)

Ltac case_split H :=
  repeat match type of H with
         | context [match ?x with _ => _ end] =>
             lazymatch x with
             | context [match _ with _ => _ end] => fail
             | _ => destruct x eqn:?
             end
         end.

Ltac step_cases H :=
  unfold step, Run, readLoop, waitWithContext, processLoop, go_func in H;
  case_split H;
  try discriminate H;
  try (injection H as <-); simpl in *.

Lemma step_trace c s s' : step c s = Some s' → ∃ ev, trace s' = trace s ++ ev.
Proof.
  intros H. destruct c as [| |c|id c|i]; step_cases H.
  all: try (by eexists).
  all: try (by exists []; rewrite app_nil_r).
  all: try (by eexists; rewrite app_nil_r).
Qed.

Lemma exec_trace sched s : ∃ ev, trace (exec sched s) = trace s ++ ev.
Proof.
  revert s. induction sched as [|c sched IH]; intros s; simpl.
  - exists []. by rewrite app_nil_r.
  - destruct (step c s) as [s'|] eqn:Hs; [|apply IH].
    destruct (step_trace _ _ _ Hs) as [ev1 H1], (IH s') as [ev2 H2].
    exists (ev1 ++ ev2). by rewrite H2, H1, app_assoc.
Qed.

(** *** The retry counter *)

Lemma retry_stable_step c s s' :
  step c s = Some s' →
  count is_read (trace s') = count is_read (trace s) →
  (∀ d, main s ≠ M_Backoff d) →
  retry s' = retry s ∧ (∀ d, main s' ≠ M_Backoff d).
Proof.
  intros H Hcnt Hmain.
  destruct c as [| |c|id c|i]; step_cases H;
    rewrite ?count_app in Hcnt; simpl in Hcnt;
    try (split; [done|]; intros; congruence);
    try (exfalso; unfold count in Hcnt; simpl in Hcnt; lia);
    try (by exfalso; eapply Hmain).
Qed.

Lemma retry_stable_exec sched s :
  count is_read (trace (exec sched s)) = count is_read (trace s) →
  (∀ d, main s ≠ M_Backoff d) →
  retry (exec sched s) = retry s.
Proof.
  revert s. induction sched as [|c sched IH]; intros s Hcnt Hmain; simpl in *; [done|].
  destruct (step c s) as [s'|] eqn:Hs; [|by apply IH].
  destruct (step_trace _ _ _ Hs) as [ev1 H1], (exec_trace sched s') as [ev2 H2].
  assert (count is_read (trace s') = count is_read (trace s)) as Hc.
  { rewrite H2, H1, !count_app in Hcnt. rewrite H1, count_app. lia. }
  destruct (retry_stable_step _ _ _ Hs Hc Hmain) as [Hr Hm].
  rewrite <- Hr. apply IH; [congruence|done].
Qed.

(** C4: the delay is non-decreasing in a non-negative retry count, at
    most 1000, the exponential [2 ^ r] cut at 1000 and at least
    [backoff 0 = 1]; a read that fails waits for the delay of the current
    counter; a read that succeeds sets the counter to zero, the counter is
    still zero when the next read happens, and if that read fails the wait
    is the minimum again. *)
Theorem backoff_capped_monotone_reset (r r' : Z) s rd msg sched :
  0 ≤ r → r ≤ r' →
  main s = M_Read →
  appkafka.ReadMessage (done s) (reader (self s)) = (rd, (msg, None)) →
  backoff r ≤ backoff r' ∧ backoff r' ≤ 1000 ∧
  backoff r = Z.min 1000 (2 ^ r) ∧ 1 ≤ backoff r ∧ backoff 0 = 1 ∧
  (∀ s0 rd0 msg0 e,
     main s0 = M_Read →
     appkafka.ReadMessage (done s0) (reader (self s0)) = (rd0, (msg0, Some e)) →
     ∃ s1, step (Main Next) s0 = Some s1 ∧
           main s1 = M_Backoff (now s0 + backoff (retry s0)) ∧ retry s1 = retry s0) ∧
  ∃ s1, step (Main Next) s = Some s1 ∧ retry s1 = 0 ∧
    (count is_read (trace (exec sched s1)) = count is_read (trace s1) →
     retry (exec sched s1) = 0 ∧
     (main (exec sched s1) = M_Read →
      ∀ rd' msg' e,
        appkafka.ReadMessage (done (exec sched s1)) (reader (self (exec sched s1)))
          = (rd', (msg', Some e)) →
        ∃ s3, step (Main Next) (exec sched s1) = Some s3 ∧
              main s3 = M_Backoff (now (exec sched s1) + backoff 0))).
Proof.
  intros Hr Hle Hmain Hread.
  split; [by apply backoff_mono|]. split; [apply backoff_le_ceiling|].
  split; [done|]. split; [by apply backoff_ge_1|]. split; [done|].
  split.
  { intros s0 rd0 msg0 e Hm0 Hread0. unfold step, Run, readLoop.
    rewrite Hm0, Hread0. eexists. split; [done|]. done. }
  assert (∃ s1, step (Main Next) s = Some s1 ∧ retry s1 = 0 ∧ ∀ d, main s1 ≠ M_Backoff d)
    as (s1 & Hs1 & Hr1 & Hm1).
  { unfold step, Run, readLoop. rewrite Hmain, Hread.
    destruct (appkafka.Value msg); eexists; (split; [done|]); simpl; split; congruence. }
  exists s1. split; [done|]. split; [done|].
  intros Hcnt.
  assert (retry (exec sched s1) = 0) as Hr2.
  { rewrite <- Hr1. by apply retry_stable_exec. }
  split; [done|].
  intros Hm2 rd' msg' e Hread'.
  unfold step, Run, readLoop. rewrite Hm2, Hread'. simpl.
  eexists. split; [done|]. simpl. by rewrite Hr2.
Qed.

(** *** Closing the collaborators *)

Lemma Close_reader_ok w rd :
  appkafka.Close (reader w) = (rd, None) →
  Close w = ([Log Info "Closing Kafka reader"; CallReaderClose false;
              Log Info "Closing Cassandra session"; CallStoreClose],
             {| store_ := store.Close (store_ w); reader := rd;
                workerCount := workerCount w; jobQueueSize := jobQueueSize w |}, None).
Proof. intros H. unfold Close. by rewrite H. Qed.

Lemma Close_reader_error w rd e :
  appkafka.Close (reader w) = (rd, Some e) →
  ∃ ev w', Close w = (ev, w', Some e) ∧ (CallStoreClose ∉ ev) ∧ store_ w' = store_ w.
Proof.
  intros H. unfold Close. rewrite H. do 2 eexists. split; [done|]. split; [|done].
  rewrite !elem_of_cons, elem_of_nil. intros [?|[?|[?|[]]]]; discriminate.
Qed.

(** *** The ingestion loop at a full buffer *)

(** C5: a payload read by [readLoop] waits at the push with a deadline 100
    time-units after the read; while the buffer is full and the context is
    not cancelled nothing moves before the deadline, and from the deadline
    on the only case that can fire is the timer: the loop is back at its
    top with the buffer untouched, the state reached does not depend on the
    payload (it is kept nowhere, so it is neither enqueued later nor
    retried), and the next step is the next read. *)
Theorem push_timeout_drops s v d :
  main s = M_Push v d →
  cap (jobs s) ≤ Z.of_nat (length (buf (jobs s))) →
  done s = false →
  (∀ s0, main s0 = M_Read → step (Main Next) s0 = Some s → d = now s0 + 100) ∧
  (now s < d → ∀ c, step (Main c) s = None) ∧
  (d ≤ now s →
   step (Main Send) s = None ∧ step (Main CtxDone) s = None ∧
   ∃ s', step (Main Timer) s = Some s' ∧
     main s' = M_Select ∧ jobs s' = jobs s ∧ tasks s' = tasks s ∧ procs s' = procs s ∧
     trace s' = trace s ++ [Log Info "Queue full, waiting to enqueue Kafka message"] ∧
     count is_enqueue (trace s') = count is_enqueue (trace s) ∧
     (∀ v', step (Main Timer) (set_main (M_Push v' d) [] s)
            = Some (set_main M_Select [] s')) ∧
     step (Main Default) s' = Some (set_main M_Read [] s')).
Proof.
  intros Hmain Hfull Hdone. split; [|split].
  - intros s0 Hm0 Hstep. unfold step, Run, readLoop in Hstep. rewrite Hm0 in Hstep.
    repeat case_match; simplify_eq; simpl in *; congruence.
  - intros Hlt c. unfold step, Run, readLoop. rewrite Hmain, Hdone.
    destruct c; try done.
    + destruct (closed (jobs s)); [done|].
      destruct (Z.ltb_spec (Z.of_nat (length (buf (jobs s)))) (cap (jobs s))); [lia|done].
    + destruct (Z.leb_spec d (now s)); [lia|done].
  - intros Hle. unfold step, Run, readLoop. rewrite Hmain, Hdone.
    split; [|split; [done|]].
    + destruct (closed (jobs s)); [done|].
      destruct (Z.ltb_spec (Z.of_nat (length (buf (jobs s)))) (cap (jobs s))); [lia|done].
    + destruct (Z.leb_spec d (now s)) as [_|]; [|lia].
      eexists. split; [done|]. simpl. rewrite Hdone.
      repeat split; try done.
      * rewrite count_app. unfold count at 2. simpl. lia.
      * intros v'. destruct (Z.leb_spec d (now s)) as [_|]; [|lia].
        unfold set_main. simpl. by rewrite !app_nil_r.
Qed.

(** *** A payload that is not fanned out *)

(** C6: a payload that does not decode leaves the [processLoop] at the top
    of its loop (it has not returned), launches nothing, calls neither
    [GetFollowers] nor [AddToFeed], and the next payload of the buffer is
    the next one it receives. *)
Theorem decode_failure_skips s id data rest :
  procs s !! id = Some P_Select →
  buf (jobs s) = data :: rest →
  json.Unmarshal data = None →
  ∃ s', step (Proc id Recv) s = Some s' ∧
    procs s' !! id = Some P_Select ∧ procs s' = procs s ∧
    tasks s' = tasks s ∧ store_ (self s') = store_ (self s) ∧
    trace s' = trace s ++ [Dequeue id data; Log Error "Invalid JSON in Kafka message"] ∧
    (∀ id', calls id' (trace s') = calls id' (trace s)) ∧
    buf (jobs s') = rest ∧
    (∀ data' rest', rest = data' :: rest' →
       ∃ s'', step (Proc id Recv) s' = Some s'' ∧ buf (jobs s'') = rest' ∧
              Dequeue id data' ∈ trace s'').
Proof.
  intros Hpc Hbuf Hdec. unfold step, processLoop. rewrite Hpc, Hbuf, Hdec.
  eexists. split; [done|]. simpl.
  assert (<[id:=P_Select]> (procs s) = procs s) as Hsame by by apply list_insert_id.
  rewrite Hsame. repeat split; try done.
  - intros id'. rewrite calls_app. simpl. by rewrite app_nil_r.
  - intros data' rest' ->. rewrite Hpc. simpl.
    destruct (json.Unmarshal data'); eexists; (split; [done|]); simpl;
      (split; [done|]); rewrite !elem_of_app, !elem_of_cons; auto.
Qed.

(** A payload that decodes is fetched for next. *)
Lemma decode_success_fetches s id data rest post :
  procs s !! id = Some P_Select →
  buf (jobs s) = data :: rest →
  json.Unmarshal data = Some post →
  ∃ s', step (Proc id Recv) s = Some s' ∧
    procs s' = <[id := P_Fetch post]> (procs s) ∧ tasks s' = tasks s ∧
    buf (jobs s') = rest.
Proof.
  intros Hpc Hbuf Hdec. unfold step, processLoop. rewrite Hpc, Hbuf, Hdec.
  eexists. split; [done|]. done.
Qed.

(** A cancellation seen in the range loop: the [processLoop] returns at
    once and its launched goroutines stay as they are. *)
Lemma cancel_in_range_returns s id post u rest :
  procs s !! id = Some (P_Range post (u :: rest)) →
  done s = true →
  step (Proc id CtxDone) s = Some (set_proc id P_Returned [WorkerReturn id] s) ∧
  step (Proc id Default) s = None ∧
  owned id (set_proc id P_Returned [WorkerReturn id] s) = owned id s.
Proof. intros Hpc Hd. unfold step, processLoop. by rewrite Hpc, Hd. Qed.

(** C7: when [GetFollowers] fails for a decoded post, the [processLoop]
    is back at the top of its loop, nothing is launched, no [AddToFeed]
    call is made and the buffer is as it was (nothing is put back). *)
Theorem fetch_failure_skips s id post st followers e :
  procs s !! id = Some (P_Fetch post) →
  store.GetFollowers (AuthorID post) (store_ (self s)) = (st, (followers, Some e)) →
  ∃ s', step (Proc id Next) s = Some s' ∧
    procs s' = <[id := P_Select]> (procs s) ∧ procs s' !! id = Some P_Select ∧
    tasks s' = tasks s ∧ jobs s' = jobs s ∧
    trace s' = trace s ++ [CallGetFollowers id (AuthorID post) true;
                           Log Error "Error fetching followers for post author"] ∧
    (∀ id', calls id' (trace s') = calls id' (trace s)) ∧
    (∀ data rest, buf (jobs s') = data :: rest →
       ∃ s'', step (Proc id Recv) s' = Some s'' ∧ buf (jobs s'') = rest).
Proof.
  intros Hpc Hget. unfold step at 1, processLoop. rewrite Hpc, Hget.
  eexists. split; [done|]. simpl.
  assert (<[id:=P_Select]> (procs s) !! id = Some P_Select) as Hsel.
  { apply list_lookup_insert_eq. by eapply lookup_lt_Some. }
  repeat split; try done.
  - intros id'. rewrite calls_app. simpl. by rewrite app_nil_r.
  - intros data rest Hbuf. unfold step. simpl. rewrite Hsel. simpl. rewrite Hbuf.
    destruct (json.Unmarshal data); eexists; (split; [done|]); done.
Qed.

(** *** Invariants of [Run] *)
Lemma after_close_app tr ev :
  after_close (tr ++ ev)
  = match after_close tr with
    | Some post => Some (post ++ ev)
    | None => after_close ev
    end.
Proof. induction tr as [|e tr IH]; [done|]. destruct e; simpl; auto. Qed.

Lemma after_close_none ev : count is_close ev = 0%nat → after_close ev = None.
Proof.
  induction ev as [|e ev IH]; [done|].
  rewrite count_cons. destruct e; simpl; auto; lia.
Qed.

Lemma Inv_start w : Inv (Run_start w).
Proof.
  split; simpl; try done.
  - intros id Hid. apply lookup_replicate in Hid as [? _]. done.
Qed.

Lemma owned_delete_nil id (ts : list Task) i t :
  ts !! i = Some t →
  filter (λ t, owner t = id) ts = [] →
  filter (λ t, owner t = id) (delete i ts) = [].
Proof.
  intros Hi Hnil.
  pose proof (delete_Permutation ts i t Hi) as Hp.
  apply (filter_Permutation (λ t, owner t = id)) in Hp.
  rewrite Hnil, filter_cons in Hp.
  case_decide.
  - by apply Permutation_nil_cons in Hp.
  - by apply Permutation_nil in Hp.
Qed.

Ltac trace_facts :=
  rewrite ?count_app, ?after_close_app, ?count_cons, ?count_nil, ?app_nil_r;
  simpl.

Lemma owned_delete_perm id (ts : list Task) i t :
  ts !! i = Some t →
  filter (λ t, owner t = id) ts
  ≡ₚ (if decide (owner t = id) then [t] else [])
     ++ filter (λ t, owner t = id) (delete i ts).
Proof.
  intros Hi. pose proof (delete_Permutation ts i t Hi) as Hp.
  apply (filter_Permutation (λ t, owner t = id)) in Hp.
  rewrite Hp, filter_cons. by case_decide.
Qed.

(** What a step of a [processLoop] may change. *)
Lemma processLoop_shape id p c s s' :
  processLoop id p c s = Some s' →
  main s' = main s ∧ done s' = done s ∧ closed (jobs s') = closed (jobs s) ∧
  p ≠ P_Returned ∧
  ∃ p' ev,
    procs s' = <[id := p']> (procs s) ∧ trace s' = trace s ++ ev ∧
    count is_close ev = 0%nat ∧ count is_enqueue ev = 0%nat ∧ count is_read ev = 0%nat ∧
    (∀ id0, calls id0 ev = []) ∧
    (p' = P_Returned → done s = true ∨ closed (jobs s) = true) ∧
    (idle p' = true → tasks s' = tasks s ∧ (idle p = true ∨ owned id s = [])) ∧
    (tasks s' = tasks s ∨
     idle p' = false ∧ Z.of_nat (length (owned id s)) < fanoutLimit ∧
     ∃ t, owner t = id ∧ tasks s' = tasks s ++ [t]).
Proof.
  intros H. unfold processLoop in H.
  case_split H; try discriminate H; injection H as <-; simpl.
  all: repeat split; try done.
  all: do 2 eexists; (split; [done|]); (split; [done|]).
  all: rewrite ?count_cons, ?count_nil; simpl.
  all: repeat split; try done; auto.
  right. split; [done|]. split; [lia|]. eexists. split; [|done]. done.
Qed.

(** What a launched fan-out goroutine changes when it runs. *)
Lemma go_func_shape i s s' :
  go_func i s = Some s' →
  ∃ t failed logs,
    tasks s !! i = Some t ∧ tasks s' = delete i (tasks s) ∧
    main s' = main s ∧ done s' = done s ∧ jobs s' = jobs s ∧ procs s' = procs s ∧
    trace s' = trace s ++ CallAddToFeed (owner t) (uid t) (carried t) failed :: logs ∧
    (logs = [] ∨ logs = [Log Error "Failed to add post to user feed"]).
Proof.
  intros H. unfold go_func in H.
  destruct (tasks s !! i) as [t|] eqn:Ht; [|done].
  destruct (store.AddToFeed (uid t) (carried t) (store_ (self s))) as [st [e|]];
    injection H as <-; simpl; exists t; do 2 eexists; repeat split; auto.
Qed.

Lemma Inv_step c s s' : Inv s → step c s = Some s' → Inv s'.
Proof.
  intros [Hcl Hcnt Haft Hcan Hjoin Hret Hquiet Hperm] H.
  destruct c as [| |c|id c|i].
  - step_cases H. split; simpl; auto.
  - step_cases H. split; simpl; auto.
  - step_cases H; split; simpl in *; unfold owned in *; simpl in *;
      trace_facts; auto; try congruence.
    all: try (intros; assumption).
    all: try (destruct (closed (jobs s)); simpl in *; first [congruence|lia]).
    all: try (destruct (after_close (trace s)); trace_facts;
              intuition (try congruence; try lia)).
    all: try (intros; by apply forallb_returned).
    all: try (match goal with
              | Hid : procs _ !! _ = Some P_Returned |- _ =>
                  specialize (Hret _ Hid); congruence
              end).
  - unfold step in H. destruct (procs s !! id) as [p|] eqn:Hp; [|done].
    apply processLoop_shape in H
      as (Hm & Hd & Hc & Hp0 & p' & ev & Hps & Htr & Hev1 & Hev2 & Hev3 & _ & Hr & Hi & Ht).
    assert (closed (jobs s) = true → done s = true) as Hcd.
    { intros Hc1. apply Hcan. rewrite Hc1 in Hcl. by destruct (main s). }
    split.
    + by rewrite Hc, Hm.
    + rewrite Htr, count_app, Hev1, Hc. lia.
    + rewrite Htr, after_close_app, Hc.
      destruct (after_close (trace s)) as [post|].
      * rewrite !count_app. intuition lia.
      * by rewrite after_close_none.
    + rewrite Hm, Hd. done.
    + rewrite Hm. intros Hdone. exfalso.
      eapply Forall_lookup_1 in Hjoin; [|done|exact Hp]. done.
    + intros id0. rewrite Hps, Hd. intros Hid0.
      destruct (decide (id = id0)) as [->|Hne].
      * rewrite list_lookup_insert_eq in Hid0 by (by eapply lookup_lt_Some).
        destruct Hr as [?|?]; [congruence|done|auto].
      * rewrite list_lookup_insert_ne in Hid0 by done. eauto.
    + intros id0 p0. rewrite Hps. intros Hid0 Hidle.
      destruct (decide (id = id0)) as [->|Hne].
      * rewrite list_lookup_insert_eq in Hid0 by (by eapply lookup_lt_Some).
        injection Hid0 as ->. destruct (Hi Hidle) as [Hts [Hpi|Ho]].
        -- unfold owned. rewrite Hts. by eapply Hquiet.
        -- unfold owned in *. by rewrite Hts.
      * rewrite list_lookup_insert_ne in Hid0 by done.
        specialize (Hquiet _ _ Hid0 Hidle). unfold owned in *.
        destruct Ht as [->|(_ & _ & t & Ho & ->)]; [done|].
        rewrite filter_app, Hquiet, filter_cons. simpl.
        case_decide; [congruence|done].
    + intros id0. specialize (Hperm id0). unfold owned in *.
      destruct Ht as [->|(_ & Hlt & t & Ho & ->)]; [done|].
      rewrite filter_app, filter_cons, length_app. simpl.
      case_decide; simpl; [subst; lia|lia].
  - apply go_func_shape in H
      as (t & failed & logs & Hi & Hts & Hm & Hd & Hj & Hps & Htr & Hlogs).
    assert (count is_close (CallAddToFeed (owner t) (uid t) (carried t) failed :: logs)
            = 0%nat ∧
            count is_enqueue (CallAddToFeed (owner t) (uid t) (carried t) failed :: logs)
            = 0%nat ∧
            count is_read (CallAddToFeed (owner t) (uid t) (carried t) failed :: logs)
            = 0%nat) as (Hev1 & Hev2 & Hev3)
      by (destruct Hlogs as [-> | ->]; done).
    split.
    + by rewrite Hj, Hm.
    + rewrite Htr, count_app, Hev1, Hj. lia.
    + rewrite Htr, after_close_app, Hj.
      destruct (after_close (trace s)) as [post|].
      * rewrite !count_app. intuition lia.
      * by rewrite after_close_none.
    + by rewrite Hm, Hd.
    + by rewrite Hm, Hps.
    + rewrite Hps, Hd. done.
    + intros id p. rewrite Hps. intros Hid Hidle. unfold owned. rewrite Hts.
      eapply owned_delete_nil; [done|]. by eapply Hquiet.
    + intros id. specialize (Hperm id). unfold owned in *. rewrite Hts.
      pose proof (owned_delete_perm id _ _ _ Hi) as Hp.
      apply Permutation_length in Hp. rewrite length_app in Hp. lia.
Qed.

Lemma Inv_exec sched s : Inv s → Inv (exec sched s).
Proof.
  revert s. induction sched as [|c sched IH]; intros s Hinv; simpl; [done|].
  destruct (step c s) as [s'|] eqn:Hs; [|by apply IH].
  apply IH. by eapply Inv_step.
Qed.

Lemma Inv_reachable w sched : Inv (exec sched (Run_start w)).
Proof. apply Inv_exec, Inv_start. Qed.

(** X23: the semaphore of the fan-out holds in every run: a [processLoop]
    never has more than [fanoutLimit] (20) of its [AddToFeed] goroutines in
    flight, however many followers the author has. *)
Lemma permits_bounded w sched id :
  Z.of_nat (length (owned id (exec sched (Run_start w)))) ≤ fanoutLimit.
Proof. apply (inv_permits _ (Inv_reachable w sched)). Qed.

(** C3 (as amended): in every run of [Run] the channel [jobs] is closed at
    most once, and exactly once by the time [Run] returns; it is closed
    only after [readLoop] has returned, no read and no enqueue follows the
    close, and neither a send on the closed channel nor a second close can
    happen; [Run] returns only after every [processLoop] has returned; and
    a [processLoop] returns only once the context is cancelled. *)
Theorem Run_closes_once_after_readLoop w sched :
  (count is_close (trace (exec sched (Run_start w))) ≤ 1)%nat ∧
  (closed (jobs (exec sched (Run_start w))) = true ↔
   count is_close (trace (exec sched (Run_start w))) = 1%nat) ∧
  (closed (jobs (exec sched (Run_start w))) = true →
   readLoop_returned (main (exec sched (Run_start w))) = true) ∧
  (∀ post, after_close (trace (exec sched (Run_start w))) = Some post →
     count is_enqueue post = 0%nat ∧ count is_read post = 0%nat ∧
     count is_close post = 0%nat) ∧
  (∀ c, panics c (exec sched (Run_start w)) = false) ∧
  (main (exec sched (Run_start w)) = M_Done →
     count is_close (trace (exec sched (Run_start w))) = 1%nat ∧
     Forall (λ p, p = P_Returned) (procs (exec sched (Run_start w)))) ∧
  (∀ id, procs (exec sched (Run_start w)) !! id = Some P_Returned →
     done (exec sched (Run_start w)) = true).
Proof.
  destruct (Inv_reachable w sched) as [Hcl Hcnt Haft Hcan Hjoin Hret _ _].
  set (s := exec sched (Run_start w)) in *.
  split_and!.
  - rewrite Hcnt. destruct (closed (jobs s)); lia.
  - rewrite Hcnt. destruct (closed (jobs s)); split; done.
  - intros Hc. rewrite Hc in Hcl. by destruct (main s).
  - intros post Hpost. rewrite Hpost in Haft. tauto.
  - intros c. unfold panics. rewrite Hcl. by destruct (main s), c.
  - intros Hm. split; [|auto]. rewrite Hcnt, Hcl, Hm. done.
  - done.
Qed.

(** *** The fan-out *)

Lemma Run_shape c s s' :
  Run c s = Some s' →
  procs s' = procs s ∧ tasks s' = tasks s ∧ done s' = done s ∧
  ∃ ev, trace s' = trace s ++ ev ∧ ∀ id, calls id ev = [].
Proof.
  intros H. unfold Run, readLoop, waitWithContext in H.
  case_split H; try discriminate H; injection H as <-; simpl.
  all: repeat split; try done; by eexists.
Qed.

Lemma done_mono c s s' : step c s = Some s' → done s = true → done s' = true.
Proof.
  intros H Hd. destruct c as [| |c|id c|i]; simpl in H.
  - by injection H as <-.
  - by injection H as <-.
  - apply Run_shape in H. destruct H as (_ & _ & -> & _). done.
  - destruct (procs s !! id); [|done].
    apply processLoop_shape in H. destruct H as (_ & -> & _). done.
  - apply go_func_shape in H. destruct H as (? & ? & ? & _ & _ & _ & -> & _). done.
Qed.

Lemma Fanout_step id base post F c s s' :
  Fanout id base post F s →
  step c s = Some s' →
  c ≠ Proc id Recv →
  done s' = false →
  Fanout id base post F s'.
Proof.
  intros (p & new & Hp & Hcalls & Hperm & Hserv) H Hc Hd.
  assert (done s = false) as Hd0.
  { destruct (done s) eqn:E; [|done]. by rewrite (done_mono _ _ _ H E) in Hd. }
  destruct c as [| |c|id' c|i]; simpl in H.
  - by injection H as <-.
  - injection H as <-. by exists p, new.
  - apply Run_shape in H as (Hps & Hts & _ & ev & Htr & Hev).
    exists p, new. unfold owned. rewrite Hps, Hts, Htr, calls_app, Hev, app_nil_r. done.
  - destruct (procs s !! id') as [p'|] eqn:Hp'; [|done].
    destruct (decide (id' = id)) as [->|Hne].
    + assert (p' = p) as -> by congruence.
      assert (id < length (procs s))%nat as Hlen by (by eapply lookup_lt_Some).
      unfold processLoop in H.
      case_split H; try discriminate H; injection H as <-; subst.
      all: try congruence.
      all: destruct Hserv as [Hserv|[Hserv Ho]]; simplify_eq.
      all: eexists _, new; unfold owned in *; simpl in *.
      all: rewrite list_lookup_insert_eq, ?calls_app, ?app_nil_r by done.
      all: split_and!; try done; auto.
      * injection Hserv as ->.
        rewrite filter_app, filter_cons, decide_True by done.
        unfold pending. rewrite map_app, <- app_assoc. simpl. done.
      * rewrite Heql. exact Hperm.
    + apply processLoop_shape in H
        as (_ & _ & _ & _ & p'' & ev & Hps & Htr & _ & _ & _ & Hev & _ & Hi & Ht).
      exists p, new. rewrite Hps, list_lookup_insert_ne, Htr, calls_app, Hev, app_nil_r by done.
      assert (owned id s' = owned id s) as ->.
      { unfold owned. destruct Ht as [->|(_ & _ & t & Ho & ->)]; [done|].
        rewrite filter_app, filter_cons, decide_False by congruence.
        by rewrite app_nil_r. }
      done.
  - apply go_func_shape in H
      as (t & failed & logs & Hi & Hts & _ & _ & _ & Hps & Htr & Hlogs).
    pose proof (owned_delete_perm id _ _ _ Hi) as Hown.
    assert (calls id (trace s')
            = base ++ new ++ if decide (owner t = id) then [(uid t, carried t)] else [])
      as Hcalls'.
    { rewrite Htr, calls_app, Hcalls, <- app_assoc. f_equal. f_equal.
      destruct Hlogs as [-> | ->]; simpl; by case_decide. }
    exists p. eexists. rewrite Hps. split; [done|]. split; [exact Hcalls'|].
    unfold owned in *. rewrite Hts. split.
    + rewrite <- Hperm. unfold pending. rewrite Hown, map_app.
      case_decide; simpl; [|by rewrite app_nil_r].
      rewrite <- !app_assoc. simpl. apply Permutation_app_head.
      by rewrite Permutation_middle.
    + destruct Hserv as [?|[-> Ho]]; [by left|right].
      split; [done|]. by eapply owned_delete_nil.
Qed.

Lemma exec_app sched1 sched2 s : exec (sched1 ++ sched2) s = exec sched2 (exec sched1 s).
Proof.
  revert s. induction sched1 as [|c sched1 IH]; intros s; simpl; [done|].
  destruct (step c s); apply IH.
Qed.

Lemma done_mono_exec sched s : done s = true → done (exec sched s) = true.
Proof.
  revert s. induction sched as [|c sched IH]; intros s Hd; simpl; [done|].
  destruct (step c s) as [s'|] eqn:Hs; [|by apply IH].
  apply IH. by eapply done_mono.
Qed.

Lemma Fanout_exec id base post F sched s :
  Fanout id base post F s →
  Forall (λ c, c ≠ Proc id Recv) sched →
  done (exec sched s) = false →
  Fanout id base post F (exec sched s).
Proof.
  revert s. induction sched as [|c sched IH]; intros s HF Hsched Hd; simpl in *; [done|].
  apply Forall_cons in Hsched as [Hc Hsched].
  destruct (step c s) as [s'|] eqn:Hs; [|by apply IH].
  apply IH; [|done|done].
  eapply Fanout_step; [done..|].
  destruct (done s') eqn:E; [|done]. by rewrite (done_mono_exec sched _ E) in Hd.
Qed.

(** The fetch that starts a fan-out. *)
Lemma Fanout_start id post F st s :
  Inv s →
  procs s !! id = Some (P_Fetch post) →
  store.GetFollowers (AuthorID post) (store_ (self s)) = (st, (F, None)) →
  ∃ s1, step (Proc id Next) s = Some s1 ∧ done s1 = done s ∧
        Fanout id (calls id (trace s)) post F s1.
Proof.
  intros HI Hp Hget. unfold step, processLoop. rewrite Hp, Hget.
  eexists. split; [done|]. split; [done|].
  exists (P_Range post F), []. simpl.
  rewrite list_lookup_insert_eq by (by eapply lookup_lt_Some).
  rewrite calls_app, !app_nil_r. simpl.
  assert (owned id s = []) as Ho by (by eapply (inv_quiet _ HI)).
  unfold owned in *. simpl. rewrite Ho. split_and!; auto.
Qed.

(** Progress: the launched goroutines can always run. *)
Lemma exec_drain n s :
  length (tasks s) = n →
  tasks (exec (replicate n (Go 0)) s) = [] ∧
  procs (exec (replicate n (Go 0)) s) = procs s ∧
  done (exec (replicate n (Go 0)) s) = done s.
Proof.
  revert s. induction n as [|n IH]; intros s Hn; simpl.
  - by apply nil_length_inv in Hn.
  - destruct (tasks s) as [|t ts] eqn:Hts; [done|].
    unfold go_func. rewrite Hts. simpl.
    destruct (store.AddToFeed (uid t) (carried t) (store_ (self s))) as [st [e|]].
    all: match goal with |- context [exec _ ?s1] =>
           destruct (IH s1) as (H1 & H2 & H3); [simpl in *; lia|] end.
    all: rewrite H1, H2, H3; done.
Qed.

Lemma exec_cons_some c sched s s' :
  step c s = Some s' → exec (c :: sched) s = exec sched s'.
Proof. intros H. simpl. by rewrite H. Qed.

Lemma step_range_default id post u rest s :
  procs s !! id = Some (P_Range post (u :: rest)) →
  done s = false →
  step (Proc id Default) s = Some (set_proc id (P_Acquire post u rest) [] s).
Proof. intros Hp Hd. unfold step, processLoop. by rewrite Hp, Hd. Qed.

Lemma step_range_end id post s :
  procs s !! id = Some (P_Range post []) →
  step (Proc id Next) s = Some (set_proc id (P_Wait post) [] s).
Proof. intros Hp. unfold step, processLoop. by rewrite Hp. Qed.

Lemma step_acquire_send id post u rest s :
  procs s !! id = Some (P_Acquire post u rest) →
  tasks s = [] →
  step (Proc id Send) s
  = Some (set_proc id (P_Range post rest) []
            (set_tasks [{| owner := id; uid := u; carried := post |}] s)).
Proof. intros Hp Hts. unfold step, processLoop, owned. by rewrite Hp, Hts. Qed.

Lemma step_wait_next id post s :
  procs s !! id = Some (P_Wait post) →
  tasks s = [] →
  step (Proc id Next) s
  = Some (set_proc id P_Select
            [Log Info "Post delivered to followers (post ID anonymized)"] s).
Proof. intros Hp Hts. unfold step, processLoop, owned. by rewrite Hp, Hts. Qed.

Lemma step_go_single t s :
  tasks s = [t] →
  ∃ s', step (Go 0) s = Some s' ∧ tasks s' = [] ∧ procs s' = procs s ∧ done s' = done s.
Proof.
  intros Hts. unfold step, go_func. rewrite Hts. simpl.
  destruct (store.AddToFeed (uid t) (carried t) (store_ (self s))) as [st [e|]];
    eexists; (split; [done|]); simpl; rewrite ?Hts; done.
Qed.

Lemma dispatch_all_completes id rest s post :
  procs s !! id = Some (P_Range post rest) →
  tasks s = [] →
  done s = false →
  procs (exec (dispatch_all id rest) s) !! id = Some P_Select ∧
  done (exec (dispatch_all id rest) s) = false.
Proof.
  revert s. induction rest as [|u rest IH]; intros s Hp Hts Hd.
  all: assert (id < length (procs s))%nat as Hlen by (by eapply lookup_lt_Some).
  - unfold dispatch_all. simpl flat_map. simpl app.
    erewrite exec_cons_some by (by eapply step_range_end).
    erewrite exec_cons_some.
    2:{ eapply step_wait_next; [|done]. simpl. by apply list_lookup_insert_eq. }
    simpl. split; [|done].
    apply list_lookup_insert_eq. by rewrite length_insert.
  - unfold dispatch_all. simpl flat_map. rewrite <- !app_comm_cons.
    erewrite exec_cons_some by (by eapply step_range_default).
    erewrite exec_cons_some.
    2:{ eapply step_acquire_send; [|done]. simpl. by apply list_lookup_insert_eq. }
    match goal with |- context [exec (Go 0 :: _) ?s1] =>
      destruct (step_go_single {| owner := id; uid := u; carried := post |} s1)
        as (s2 & Hs2 & Hts2 & Hps2 & Hd2); [done|] end.
    erewrite exec_cons_some by exact Hs2.
    apply IH; [|done|by rewrite Hd2].
    rewrite Hps2. simpl. apply list_lookup_insert_eq. by rewrite length_insert.
Qed.

Lemma finish_completes id base post F s p :
  Fanout id base post F s →
  procs s !! id = Some p →
  done s = false →
  procs (exec (finish id p (length (tasks s))) s) !! id = Some P_Select ∧
  done (exec (finish id p (length (tasks s))) s) = false.
Proof.
  intros (p0 & new & Hp0 & _ & _ & Hserv) Hp Hd.
  assert (p0 = p) as -> by congruence.
  unfold finish. rewrite exec_app.
  destruct (exec_drain (length (tasks s)) s eq_refl) as (Hts & Hps & Hd1).
  set (s1 := exec (replicate (length (tasks s)) (Go 0)) s) in *.
  rewrite <- Hps in Hp. rewrite <- Hd1 in Hd.
  assert (id < length (procs s1))%nat as Hlen by (by eapply lookup_lt_Some).
  destruct Hserv as [Hserv|[-> _]]; [|done].
  destruct p; try done.
  - by eapply dispatch_all_completes.
  - rewrite <- !app_comm_cons. simpl app.
    erewrite exec_cons_some by (by eapply step_acquire_send).
    match goal with |- context [exec (Go 0 :: _) ?s2] =>
      destruct (step_go_single {| owner := id; uid := u; carried := post0 |} s2)
        as (s3 & Hs3 & Hts3 & Hps3 & Hd3); [done|] end.
    erewrite exec_cons_some by exact Hs3.
    eapply dispatch_all_completes; [|done|by rewrite Hd3].
    rewrite Hps3. simpl. by apply list_lookup_insert_eq.
  - erewrite exec_cons_some by (by eapply step_wait_next).
    simpl. split; [|done]. by apply list_lookup_insert_eq.
Qed.

Lemma finish_allowed id p n :
  Forall (λ c, c ≠ Cancel ∧ c ≠ Proc id Recv) (finish id p n).
Proof.
  assert (∀ rest, Forall (λ c, c ≠ Cancel ∧ c ≠ Proc id Recv) (dispatch_all id rest))
    as Hall.
  { intros rest. unfold dispatch_all. apply Forall_app. split.
    - induction rest as [|u rest IH]; simpl; [constructor|].
      repeat (constructor; [done|]). done.
    - repeat (constructor; [done|]). constructor. }
  unfold finish. apply Forall_app. split.
  - apply Forall_replicate. done.
  - destruct p; try constructor; try done; auto.
Qed.

Lemma deliveries_NoDup post F : NoDup F → NoDup (deliveries post F).
Proof.
  induction 1 as [|u F Hu _ IH]; simpl; constructor; [|done].
  unfold deliveries. rewrite list_elem_of_In, in_map_iff.
  intros (u' & [= ->] & Hin). by apply Hu, list_elem_of_In.
Qed.

(** *** The calls and the store *)

Lemma applied_app ev1 ev2 (st st1 st2 : S) :
  applied ev1 st st1 → applied ev2 st1 st2 → applied (ev1 ++ ev2) st st2.
Proof.
  revert st. induction ev1 as [|e ev1 IH]; intros st; simpl.
  - by intros ->.
  - destruct e; try apply IH.
    all: intros [-> H1] H2; split; [done|]; by apply IH.
Qed.

(** Every step applies to the store exactly the calls it records. *)
Lemma applied_step c s s' :
  step c s = Some s' →
  ∃ ev, trace s' = trace s ++ ev ∧ applied ev (store_ (self s)) (store_ (self s')).
Proof.
  intros H. destruct c as [| |c|id c|i]; step_cases H.
  all: try (by exists []; rewrite app_nil_r).
  all: try (by eexists; split; [reflexivity|]).
  all: eexists; (split; [reflexivity|]); simpl.
  all: match goal with E : _ = (_, _) |- _ => by rewrite E end.
Qed.

Lemma applied_exec sched s :
  ∃ ev, trace (exec sched s) = trace s ++ ev ∧
        applied ev (store_ (self s)) (store_ (self (exec sched s))).
Proof.
  revert s. induction sched as [|c sched IH]; intros s; simpl.
  - exists []. by rewrite app_nil_r.
  - destruct (step c s) as [s'|] eqn:Hs; [|apply IH].
    destruct (applied_step _ _ _ Hs) as (ev1 & H1 & Ha1).
    destruct (IH s') as (ev2 & H2 & Ha2).
    exists (ev1 ++ ev2). split; [by rewrite H2, H1, app_assoc|].
    by eapply applied_app.
Qed.

(** C1: a [processLoop] of a run of [Run] has decoded [post] and its
    fetch returns the duplicate-free followers [F]; it takes no other
    payload meanwhile and the context is not cancelled. Then the fan-out
    can always be brought to its end without cancellation, and whenever
    the [processLoop] is back at the top of its loop, the [AddToFeed]
    calls made for it since the fetch are, up to their order, one call
    [(u, post)] for each follower [u] of [F]: [length F] calls, no two
    alike, each carrying [post]; and none of its goroutines is still in
    flight. The calls are made on the store: the store at that point is the
    store of the fetch after the store calls recorded since, these among
    them, each applied in the order recorded and each reported with the
    answer the store gave. *)
Theorem fanout_delivers_each_follower w pre s id post F st sched :
  s = exec pre (Run_start w) →
  procs s !! id = Some (P_Fetch post) →
  store.GetFollowers (AuthorID post) (store_ (self s)) = (st, (F, None)) →
  NoDup F →
  Forall (λ c, c ≠ Proc id Recv) sched →
  done (exec (Proc id Next :: sched) s) = false →
  (∃ more,
     Forall (λ c, c ≠ Cancel ∧ c ≠ Proc id Recv) more ∧
     procs (exec (Proc id Next :: sched ++ more) s) !! id = Some P_Select ∧
     done (exec (Proc id Next :: sched ++ more) s) = false) ∧
  (procs (exec (Proc id Next :: sched) s) !! id = Some P_Select →
   ∃ new,
     calls id (trace (exec (Proc id Next :: sched) s)) = calls id (trace s) ++ new ∧
     new ≡ₚ deliveries post F ∧
     length new = length F ∧
     NoDup new ∧
     owned id (exec (Proc id Next :: sched) s) = [] ∧
     ∃ ev,
       trace (exec (Proc id Next :: sched) s) = trace s ++ ev ∧
       calls id ev = new ∧
       applied ev (store_ (self s)) (store_ (self (exec (Proc id Next :: sched) s)))).
Proof.
  intros -> Hp Hget Hnd Hsched Hd.
  set (s := exec pre (Run_start w)) in *.
  destruct (applied_exec (Proc id Next :: sched) s) as (ev & Hev & Happ).
  destruct (Fanout_start id post F st s (Inv_reachable w pre) Hp Hget)
    as (s1 & Hs1 & Hd1 & HF1).
  rewrite (exec_cons_some _ _ _ _ Hs1) in Hd, Hev, Happ |- *.
  pose proof (Fanout_exec _ _ _ _ _ _ HF1 Hsched Hd) as HF2.
  split.
  - destruct HF2 as (p & new & Hp2 & Hrest).
    exists (finish id p (length (tasks (exec sched s1)))).
    split; [apply finish_allowed|].
    rewrite (exec_cons_some _ _ _ _ Hs1), exec_app.
    eapply finish_completes; [|done..]. by exists p, new.
  - intros Hsel. destruct HF2 as (p & new & Hp2 & Hcalls & Hperm & Hserv).
    assert (p = P_Select) as -> by congruence.
    destruct Hserv as [?|[_ Ho]]; [done|].
    rewrite Ho in Hperm. simpl in Hperm. rewrite app_nil_r in Hperm.
    exists new. split_and!; [done|done| | |done|].
    + rewrite Hperm. unfold deliveries. by rewrite length_map.
    + rewrite Hperm. by apply deliveries_NoDup.
    + exists ev. split_and!; [done| |done].
      rewrite Hev, calls_app in Hcalls. by apply app_inv_head in Hcalls.
Qed.

(** *** The flow of payloads *)

Lemma Flow_start w : Flow (Run_start w).
Proof.
  unfold Flow, Run_start. simpl. split_and!; [|done|done].
  destruct (jobQueueSize w <=? 0) eqn:E; [lia|]. apply Z.leb_gt in E. lia.
Qed.

Lemma Flow_step c s s' :
  step c s = Some s' → Flow s → Flow s' ∧ cap (jobs s') = cap (jobs s).
Proof.
  intros H (Hcap & Hfifo & Hsub). unfold Flow.
  destruct c as [| |c|id c|i].
  - step_cases H. done.
  - step_cases H. done.
  - step_cases H; unfold enqueued, dequeued, accepted in *;
      rewrite ?app_nil_r in Hsub;
      rewrite ?omap_app, ?app_nil_r, ?length_app; simpl;
      rewrite ?app_nil_r; split_and!; try done; try lia.
    all: try (by apply sublist_app).
    all: try (by rewrite Hfifo, <- app_assoc).
    all: try (etrans; [|exact Hsub]; by apply sublist_inserts_r).
    all: destruct (appkafka.Value _); simpl; rewrite ?app_nil_r; done.
  - unfold step in H. destruct (procs s !! id) as [p|] eqn:Hp; [|done].
    unfold processLoop in H.
    case_split H; try discriminate H; injection H as <-; simpl in *.
    all: unfold enqueued, dequeued, accepted in *;
      rewrite ?omap_app, ?app_nil_r; simpl; rewrite ?app_nil_r.
    all: split_and!; try done; try lia.
    all: try (rewrite Hfifo, <- ?app_assoc; done).
    all: rewrite Heql; simpl in *; rewrite ?app_nil_r in *; first [lia|done].
  - apply go_func_shape in H
      as (t & failed & logs & _ & _ & -> & _ & -> & _ & -> & Hlogs).
    unfold enqueued, dequeued, accepted in *. rewrite !omap_app.
    destruct Hlogs as [-> | ->]; simpl; rewrite !app_nil_r; done.
Qed.

Lemma Flow_exec sched s :
  Flow s → Flow (exec sched s) ∧ cap (jobs (exec sched s)) = cap (jobs s).
Proof.
  revert s. induction sched as [|c sched IH]; intros s HF; simpl; [done|].
  destruct (step c s) as [s'|] eqn:Hs; [|by apply IH].
  destruct (Flow_step _ _ _ Hs HF) as [HF' Hc].
  destruct (IH s' HF') as [HF'' Hc']. split; [done|congruence].
Qed.

(** X1: the job buffer never holds more payloads than its capacity, and the
    capacity is the one [Run] made the channel with: it is never resized. *)
Theorem jobs_within_capacity w sched :
  Z.of_nat (length (buf (jobs (exec sched (Run_start w)))))
    ≤ cap (jobs (exec sched (Run_start w))) ∧
  cap (jobs (exec sched (Run_start w)))
    = (if jobQueueSize w <=? 0 then 10 else jobQueueSize w) ∧
  0 < cap (jobs (exec sched (Run_start w))).
Proof.
  destruct (Flow_exec sched _ (Flow_start w)) as [(Hcap & _) Hc].
  rewrite Hc. split; [by rewrite <- Hc|]. simpl. split; [done|].
  destruct (Z.leb_spec (jobQueueSize w) 0); lia.
Qed.

(** X2: the job buffer is first-in first-out and loses nothing: at any
    point of a run the payloads sent on it are, in order, the payloads the
    [processLoop] goroutines have received followed by the payloads still
    buffered; so a payload is received by one [processLoop] only. *)
Theorem jobs_fifo w sched :
  enqueued (trace (exec sched (Run_start w)))
  = dequeued (trace (exec sched (Run_start w)))
    ++ buf (jobs (exec sched (Run_start w))).
Proof. by destruct (Flow_exec sched _ (Flow_start w)) as [(_ & ? & _) _]. Qed.

(** X3: [readLoop] sends only what it has read: the payloads sent on the
    job buffer, followed by the one being sent, are among the non-empty
    values that [ReadMessage] returned without error, in the order they were
    read (the ones dropped at a full buffer are missing). *)
Theorem enqueued_were_read w sched :
  (enqueued (trace (exec sched (Run_start w)))
   ++ pushing (main (exec sched (Run_start w))))
  `sublist_of` accepted (trace (exec sched (Run_start w))).
Proof. by destruct (Flow_exec sched _ (Flow_start w)) as [(_ & _ & ?) _]. Qed.

(** X4: [readLoop] returns, and so [Run] closes the channel, waits and
    returns, only after the context is cancelled: neither a read error, an
    empty read, a full buffer nor anything a [processLoop] meets ends it. *)
Theorem Run_returns_only_after_cancellation w sched :
  readLoop_returned (main (exec sched (Run_start w))) = true →
  done (exec sched (Run_start w)) = true.
Proof. apply (inv_cancelled _ (Inv_reachable w sched)). Qed.

(** *** The retry counter and the reads *)

Lemma failures_app tr ev :
  count is_read ev = 0%nat → failures_in_a_row (tr ++ ev) = failures_in_a_row tr.
Proof.
  unfold failures_in_a_row. rewrite foldl_app.
  generalize (foldl (λ n e, match e with
                            | CallReadMessage _ true => Datatypes.S n
                            | CallReadMessage _ false => 0%nat
                            | _ => n
                            end) 0%nat tr).
  induction ev as [|e ev IH]; intros n; [done|].
  rewrite count_cons. destruct e; simpl; intros Hc; try (by apply IH); lia.
Qed.

Lemma failures_snoc_read tr v failed ev :
  count is_read ev = 0%nat →
  failures_in_a_row (tr ++ CallReadMessage v failed :: ev)
  = if failed then Datatypes.S (failures_in_a_row tr) else 0%nat.
Proof.
  intros Hev. rewrite (app_assoc tr [_] ev) || rewrite cons_middle, app_assoc.
  rewrite failures_app by done.
  unfold failures_in_a_row. rewrite foldl_app. simpl. by destruct failed.
Qed.

Lemma retry_after_small n : Z.of_nat n ≤ int_max → retry_after n = Z.of_nat n.
Proof.
  induction n as [|n IH]; [done|]. intros Hn.
  unfold retry_after in *. simpl. rewrite IH by lia.
  rewrite wrap_id; unfold int_min, int_max in *; lia.
Qed.

Lemma processLoop_keeps id p c s s' :
  processLoop id p c s = Some s' →
  retry s' = retry s ∧ now s' = now s ∧ reader (self s') = reader (self s) ∧
  cap (jobs s') = cap (jobs s).
Proof.
  intros H. unfold processLoop in H.
  case_split H; try discriminate H; injection H as <-; done.
Qed.

Lemma go_func_keeps i s s' :
  go_func i s = Some s' →
  retry s' = retry s ∧ now s' = now s ∧ reader (self s') = reader (self s).
Proof.
  intros H. unfold go_func in H.
  case_split H; try discriminate H; injection H as <-; done.
Qed.

Lemma Retrying_step c s s' : step c s = Some s' → Retrying s → Retrying s'.
Proof.
  intros H HR0. unfold Retrying in *.
  destruct c as [| |c|id c|i].
  - step_cases H. done.
  - step_cases H. done.
  - step_cases H; rewrite ?app_nil_r; try done.
    + rewrite failures_snoc_read by done. eauto.
    + by rewrite failures_snoc_read.
    + by rewrite failures_snoc_read.
    + destruct HR0 as (n & -> & ->). done.
    + by rewrite failures_app.
    + by rewrite failures_app.
  - unfold step in H. destruct (procs s !! id) as [p|] eqn:Hp; [|done].
    destruct (processLoop_keeps _ _ _ _ _ H) as (-> & _).
    apply processLoop_shape in H
      as (-> & _ & _ & _ & p' & ev & _ & -> & _ & _ & Hev & _).
    rewrite failures_app by done. done.
  - destruct (go_func_keeps _ _ _ H) as (-> & _).
    apply go_func_shape in H
      as (t & failed & logs & _ & _ & -> & _ & _ & _ & -> & Hlogs).
    rewrite failures_app by (by destruct Hlogs as [-> | ->]). done.
Qed.

Lemma Retrying_exec sched s : Retrying s → Retrying (exec sched s).
Proof.
  revert s. induction sched as [|c sched IH]; intros s HR0; simpl; [done|].
  destruct (step c s) as [s'|] eqn:Hs; [|by apply IH].
  apply IH. by eapply Retrying_step.
Qed.

(** X5: when [readLoop] is about to read, [retry] is the number of reads
    that have failed in a row since the last read that succeeded (as long
    as that number fits an [int]); so the read that fails after [k]
    failures in a row waits [min 1000 (2 ^ k)] milliseconds. *)
Theorem retry_counts_failures_in_a_row w sched :
  main (exec sched (Run_start w)) = M_Read →
  Z.of_nat (failures_in_a_row (trace (exec sched (Run_start w)))) ≤ int_max →
  retry (exec sched (Run_start w))
  = Z.of_nat (failures_in_a_row (trace (exec sched (Run_start w)))) ∧
  ∀ rd msg e,
    appkafka.ReadMessage (done (exec sched (Run_start w)))
      (reader (self (exec sched (Run_start w)))) = (rd, (msg, Some e)) →
    ∃ s', step (Main Next) (exec sched (Run_start w)) = Some s' ∧
      main s' = M_Backoff
                  (now (exec sched (Run_start w))
                   + Z.min 1000
                       (2 ^ Z.of_nat (failures_in_a_row
                                        (trace (exec sched (Run_start w)))))).
Proof.
  intros Hm Hfit.
  assert (Retrying (exec sched (Run_start w))) as HR0 by (by apply Retrying_exec).
  set (s := exec sched (Run_start w)) in *.
  unfold Retrying in HR0. rewrite Hm in HR0.
  rewrite retry_after_small in HR0 by done.
  split; [done|]. intros rd msg e Hread.
  unfold step, Run, readLoop. rewrite Hm, Hread. simpl.
  eexists. split; [done|]. simpl. unfold backoff. by rewrite HR0.
Qed.


(** *** Fan-out to a list with repetitions *)

Lemma deliveries_count post F u :
  length (filter (λ c, c = (u, post)) (deliveries post F))
  = length (filter (λ v, v = u) F).
Proof.
  induction F as [|v F IH]; [done|]. unfold deliveries in *. simpl.
  rewrite !filter_cons. repeat case_decide; simplify_eq; simpl; by rewrite ?IH.
Qed.

(** X6: the fan-out does not deduplicate and does not stop at a failed
    write: whatever list [F] the fetch returns and whatever [AddToFeed]
    answers, when the [processLoop] is back at the top of its loop (no
    cancellation) the calls made for it since the fetch are a permutation of
    one call per entry of [F], so a follower listed [n] times is written [n]
    times; and the calls are made on the store: the store at that point is
    the store of the fetch after the store calls recorded since, these
    among them, each applied in the order recorded and each reported with
    the answer the store gave. *)
Theorem fanout_without_deduplication w pre s id post F st sched :
  s = exec pre (Run_start w) →
  procs s !! id = Some (P_Fetch post) →
  store.GetFollowers (AuthorID post) (store_ (self s)) = (st, (F, None)) →
  Forall (λ c, c ≠ Proc id Recv) sched →
  done (exec (Proc id Next :: sched) s) = false →
  procs (exec (Proc id Next :: sched) s) !! id = Some P_Select →
  ∃ new,
    calls id (trace (exec (Proc id Next :: sched) s)) = calls id (trace s) ++ new ∧
    new ≡ₚ deliveries post F ∧
    (∀ u, length (filter (λ c, c = (u, post)) new) = length (filter (λ v, v = u) F)) ∧
    ∃ ev,
      trace (exec (Proc id Next :: sched) s) = trace s ++ ev ∧
      calls id ev = new ∧
      applied ev (store_ (self s)) (store_ (self (exec (Proc id Next :: sched) s))).
Proof.
  intros -> Hp Hget Hsched Hd Hsel.
  set (s := exec pre (Run_start w)) in *.
  destruct (applied_exec (Proc id Next :: sched) s) as (ev & Hev & Happ).
  destruct (Fanout_start id post F st s (Inv_reachable w pre) Hp Hget)
    as (s1 & Hs1 & Hd1 & HF1).
  rewrite (exec_cons_some _ _ _ _ Hs1) in Hd, Hsel, Hev, Happ |- *.
  destruct (Fanout_exec _ _ _ _ _ _ HF1 Hsched Hd)
    as (p & new & Hp2 & Hcalls & Hperm & Hserv).
  assert (p = P_Select) as -> by congruence.
  destruct Hserv as [?|[_ Ho]]; [done|].
  rewrite Ho in Hperm. simpl in Hperm. rewrite app_nil_r in Hperm.
  exists new. split_and!; [done|done| |].
  - intros u. rewrite <- (deliveries_count post).
    apply Permutation_length. by apply filter_Permutation.
  - exists ev. split_and!; [done| |done].
    rewrite Hev, calls_app in Hcalls. by apply app_inv_head in Hcalls.
Qed.

(** *** Stopping [Run] *)

Lemma step_select_cancelled id s :
  procs s !! id = Some P_Select →
  done s = true →
  step (Proc id CtxDone) s = Some (set_proc id P_Returned [WorkerReturn id] s).
Proof. intros Hp Hd. unfold step, processLoop. by rewrite Hp, Hd. Qed.

(** A [processLoop] outside a dispatch and a fetch can return once the
    context is cancelled and no goroutine is in flight. *)
Lemma worker_can_return_simple id s p :
  procs s !! id = Some p →
  (∀ post, p ≠ P_Fetch post) → (∀ post u rest, p ≠ P_Acquire post u rest) →
  done s = true → tasks s = [] →
  ∃ sched, procs (exec sched s) = <[id := P_Returned]> (procs s) ∧
           tasks (exec sched s) = [].
Proof.
  intros Hp Hnf Hna Hd Hts.
  assert (id < length (procs s))%nat as Hlen by (by eapply lookup_lt_Some).
  destruct p as [|post|post [|u rest]|post u rest|post|].
  - exists [Proc id CtxDone].
    erewrite exec_cons_some by (by apply step_select_cancelled). done.
  - by destruct (Hnf post).
  - exists [Proc id Next; Proc id Next; Proc id CtxDone].
    erewrite exec_cons_some by (by eapply step_range_end).
    erewrite exec_cons_some.
    2:{ eapply step_wait_next; [|done]. simpl. by apply list_lookup_insert_eq. }
    erewrite exec_cons_some.
    2:{ apply step_select_cancelled; [|done]. simpl.
        apply list_lookup_insert_eq. by rewrite length_insert. }
    simpl. by rewrite !list_insert_insert_eq.
  - exists [Proc id CtxDone].
    erewrite exec_cons_some by (by eapply cancel_in_range_returns). done.
  - by destruct (Hna post u rest).
  - exists [Proc id Next; Proc id CtxDone].
    erewrite exec_cons_some by (by eapply step_wait_next).
    erewrite exec_cons_some.
    2:{ apply step_select_cancelled; [|done]. simpl. by apply list_lookup_insert_eq. }
    simpl. by rewrite !list_insert_insert_eq.
  - exists []. simpl. by rewrite list_insert_id.
Qed.

Lemma worker_can_return id s p :
  procs s !! id = Some p →
  done s = true → tasks s = [] →
  ∃ sched, procs (exec sched s) = <[id := P_Returned]> (procs s) ∧
           tasks (exec sched s) = [].
Proof.
  intros Hp Hd Hts.
  assert (id < length (procs s))%nat as Hlen by (by eapply lookup_lt_Some).
  destruct p as [|post|post F|post u rest|post|] eqn:Ep.
  all: try (eapply worker_can_return_simple; by eauto).
  - destruct (step (Proc id Next) s) as [s1|] eqn:Hs1.
    2:{ unfold step, processLoop in Hs1. rewrite Hp in Hs1.
        by case_split Hs1. }
    assert (∃ p1, procs s1 = <[id := p1]> (procs s) ∧ tasks s1 = [] ∧ done s1 = true ∧
                  (∀ post, p1 ≠ P_Fetch post) ∧ (∀ post u rest, p1 ≠ P_Acquire post u rest))
      as (p1 & Hps1 & Hts1 & Hd1 & Hnf1 & Hna1).
    { unfold step, processLoop in Hs1. rewrite Hp in Hs1.
      case_split Hs1; injection Hs1 as <-; simpl; eexists; by split_and!. }
    destruct (worker_can_return_simple id s1 p1) as (sched & Hps & Hts2); try done.
    { rewrite Hps1. by apply list_lookup_insert_eq. }
    exists (Proc id Next :: sched). rewrite (exec_cons_some _ _ _ _ Hs1).
    by rewrite Hps, Hps1, list_insert_insert_eq.
  - pose proof (step_acquire_send id post u rest s Hp Hts) as Hs1.
    match type of Hs1 with _ = Some ?s1 =>
      destruct (step_go_single {| owner := id; uid := u; carried := post |} s1)
        as (s2 & Hs2 & Hts2 & Hps2 & Hd2); [done|] end.
    destruct (worker_can_return_simple id s2 (P_Range post rest))
      as (sched & Hps & Hts3); try done.
    { rewrite Hps2. simpl. by apply list_lookup_insert_eq. }
    { by rewrite Hd2. }
    exists (Proc id Send :: Go 0 :: sched).
    rewrite (exec_cons_some _ _ _ _ Hs1), (exec_cons_some _ _ _ _ Hs2).
    rewrite Hps, Hps2. simpl. by rewrite list_insert_insert_eq.
Qed.

Lemma workers_can_return n s :
  (n ≤ length (procs s))%nat →
  done s = true → tasks s = [] →
  ∃ sched,
    (∀ j, (j < n)%nat → procs (exec sched s) !! j = Some P_Returned) ∧
    length (procs (exec sched s)) = length (procs s) ∧
    tasks (exec sched s) = [].
Proof.
  induction n as [|n IH]; intros Hn Hd Hts.
  - exists []. simpl. split_and!; [lia|done|done].
  - destruct IH as (sched1 & Hret & Hlen & Hts1); [lia|done|done|].
    set (s1 := exec sched1 s) in *.
    destruct (lookup_lt_is_Some_2 (procs s1) n) as [p Hp]; [lia|].
    destruct (worker_can_return n s1 p Hp) as (sched2 & Hps & Hts2);
      [by apply done_mono_exec|done|].
    exists (sched1 ++ sched2). rewrite exec_app. fold s1. rewrite Hps.
    split_and!; [|by rewrite length_insert|done].
    intros j Hj. destruct (decide (j = n)) as [->|Hne].
    + apply list_lookup_insert_eq. lia.
    + rewrite list_lookup_insert_ne by done. apply Hret. lia.
Qed.

Lemma returned_forallb (ps : list ProcPC) :
  Forall (λ p, p = P_Returned) ps → forallb is_returned ps = true.
Proof. induction 1 as [|p ps -> _ IH]; [done|]. simpl. exact IH. Qed.

Lemma close_and_join s :
  main s = M_Close → closed (jobs s) = false →
  Forall (λ p, p = P_Returned) (procs s) →
  main (exec [Main Next; Main Next] s) = M_Done.
Proof.
  intros Hm Hc Hps. simpl. unfold Run at 1. rewrite Hm, Hc.
  unfold Run. simpl. by rewrite returned_forallb.
Qed.

Lemma cancelled_readLoop_returns s :
  done s = true →
  main s ≠ M_Read → readLoop_returned (main s) = false →
  step (Main CtxDone) s = Some (set_main M_Close [] s).
Proof.
  intros Hd Hnr Hrl. unfold step, Run, readLoop, waitWithContext.
  destruct (main s); try done; by rewrite Hd.
Qed.

Lemma exec_main_keeps_tasks sched s :
  Forall (λ c, ∃ c', c = Main c') sched → tasks (exec sched s) = tasks s.
Proof.
  intros Hall. revert s. induction Hall as [|c sched [c' ->] _ IH]; intros s; [done|].
  simpl. destruct (Run c' s) as [s'|] eqn:Hs; [|apply IH].
  rewrite IH. by apply Run_shape in Hs as (_ & ? & _).
Qed.

Lemma main_can_return s :
  Inv s → done s = true →
  Forall (λ p, p = P_Returned) (procs s) →
  ∃ sched, main (exec sched s) = M_Done ∧ Forall (λ c, ∃ c', c = Main c') sched.
Proof.
  intros HI Hd Hps.
  pose proof (inv_closed _ HI) as Hcl.
  destruct (readLoop_returned (main s)) eqn:Hrl.
  - destruct (main s) eqn:Hm; try done.
    + exists [Main Next; Main Next]. split; [by apply close_and_join|].
      repeat constructor; by eexists.
    + exists [Main Next]. split; [|repeat constructor; by eexists].
      simpl. unfold Run. rewrite Hm. by rewrite returned_forallb.
    + by exists [].
  - assert (∃ pre s1, exec pre s = s1 ∧ done s1 = true ∧ procs s1 = procs s ∧
                      jobs s1 = jobs s ∧ main s1 ≠ M_Read ∧
                      readLoop_returned (main s1) = false ∧
                      Forall (λ c, ∃ c', c = Main c') pre)
      as (pre & s1 & Hpre & Hd1 & Hps1 & Hj1 & Hnr1 & Hrl1 & Hall).
    { destruct (main s) eqn:Hm.
      2:{ destruct (step (Main Next) s) as [s1|] eqn:Hs1.
          2:{ unfold step, Run, readLoop in Hs1. rewrite Hm in Hs1. by case_split Hs1. }
          exists [Main Next], s1. rewrite (exec_cons_some _ _ _ _ Hs1).
          unfold step, Run, readLoop in Hs1. rewrite Hm in Hs1.
          case_split Hs1; injection Hs1 as <-; split_and!; try done.
          all: repeat constructor; by eexists. }
      all: exists [], s; rewrite Hm; by split_and!. }
    exists (pre ++ [Main CtxDone; Main Next; Main Next]). split.
    + rewrite exec_app, Hpre.
      erewrite exec_cons_some by (by apply cancelled_readLoop_returns).
      apply close_and_join; simpl; [done| |by rewrite Hps1].
      rewrite Hj1, Hcl. by destruct (main s).
    + apply Forall_app. split; [done|]. repeat constructor; by eexists.
Qed.

(** X7: [Run] can always be stopped cleanly: wherever a run stands, once
    the context is cancelled there is a way on at whose end [Run] has
    returned, no launched fan-out goroutine is left in flight (each has
    made its call and finished), every [processLoop] has returned and the
    channel is closed; nothing is left blocked for ever. *)
Theorem Run_can_always_stop w pre :
  ∃ sched,
    main (exec (pre ++ Cancel :: sched) (Run_start w)) = M_Done ∧
    tasks (exec (pre ++ Cancel :: sched) (Run_start w)) = [] ∧
    Forall (λ p, p = P_Returned) (procs (exec (pre ++ Cancel :: sched) (Run_start w))) ∧
    closed (jobs (exec (pre ++ Cancel :: sched) (Run_start w))) = true.
Proof.
  set (s0 := exec pre (Run_start w)).
  destruct (step Cancel s0) as [s1|] eqn:Hs1; [|done].
  assert (done s1 = true) as Hd1 by (by injection Hs1 as <-).
  destruct (exec_drain (length (tasks s1)) s1 eq_refl) as (Hts2 & Hps2 & Hd2).
  set (s2 := exec (replicate (length (tasks s1)) (Go 0)) s1) in *.
  destruct (workers_can_return (length (procs s2)) s2) as (sched3 & Hret & Hlen & Hts3);
    [done|congruence|done|].
  set (s3 := exec sched3 s2) in *.
  assert (Inv s3) as HI3.
  { apply Inv_exec, Inv_exec. eapply Inv_step; [|exact Hs1]. apply Inv_reachable. }
  destruct (main_can_return s3) as (sched4 & Hdone & Hmain); [done| | |].
  - apply done_mono_exec. congruence.
  - apply Forall_lookup. intros j p Hj.
    rewrite Hret in Hj; [congruence|]. rewrite <- Hlen. by eapply lookup_lt_Some.
  - exists (replicate (length (tasks s1)) (Go 0) ++ sched3 ++ sched4).
    rewrite exec_app. fold s0. rewrite (exec_cons_some _ _ _ _ Hs1).
    rewrite !exec_app. fold s2 s3.
    pose proof (Inv_exec sched4 _ HI3) as HI4.
    split_and!.
    + done.
    + by rewrite exec_main_keeps_tasks.
    + by apply (inv_joined _ HI4).
    + by rewrite (inv_closed _ HI4), Hdone.
Qed.

(** *** What the steps do to the store and the reader *)

Lemma Run_keeps_store c s s' :
  Run c s = Some s' → store_ (self s') = store_ (self s) ∧ tasks s' = tasks s.
Proof.
  intros H. unfold Run, readLoop, waitWithContext in H.
  case_split H; try discriminate H; injection H as <-; done.
Qed.

Lemma processLoop_store id p c s s' :
  processLoop id p c s = Some s' →
  store_ (self s') = store_ (self s) ∨
  ∃ post, p = P_Fetch post ∧
          store_ (self s') = (store.GetFollowers (AuthorID post) (store_ (self s))).1.
Proof.
  intros H. unfold processLoop in H.
  case_split H; try discriminate H; injection H as <-; simpl; auto.
  all: right; eexists; split; [done|].
  all: match goal with E : store.GetFollowers _ _ = _ |- _ => by rewrite E end.
Qed.

Lemma go_func_store i s s' :
  go_func i s = Some s' →
  ∃ t logs,
    tasks s !! i = Some t ∧
    store_ (self s') = (store.AddToFeed (uid t) (carried t) (store_ (self s))).1 ∧
    trace s' = trace s
               ++ CallAddToFeed (owner t) (uid t) (carried t)
                    (match (store.AddToFeed (uid t) (carried t) (store_ (self s))).2 with
                     | Some _ => true
                     | None => false
                     end) :: logs ∧
    (logs = [] ∨ logs = [Log Error "Failed to add post to user feed"]).
Proof.
  intros H. unfold go_func in H.
  destruct (tasks s !! i) as [t|] eqn:Ht; [|done].
  destruct (store.AddToFeed (uid t) (carried t) (store_ (self s))) as [st [e|]] eqn:E;
    injection H as <-; exists t.
  - exists [Log Error "Failed to add post to user feed"]. simpl. rewrite E.
    split_and!; auto.
  - exists []. simpl. rewrite E. split_and!; auto.
Qed.

Lemma accepted_app tr1 tr2 : accepted (tr1 ++ tr2) = accepted tr1 ++ accepted tr2.
Proof. unfold accepted. apply omap_app. Qed.

Lemma no_read_nothing_accepted ev : count is_read ev = 0%nat → accepted ev = [].
Proof.
  induction ev as [|e ev IH]; [done|]. rewrite count_cons.
  destruct e; simpl; intros Hc; try (by apply IH); lia.
Qed.

(** A step of [Run] leaves the reader alone and reads nothing, or it is the
    call of [ReadMessage]. *)
Lemma Run_reads c s s' :
  Run c s = Some s' →
  (reader (self s') = reader (self s) ∧
   ∃ ev, trace s' = trace s ++ ev ∧ count is_read ev = 0%nat) ∨
  (∃ logs,
     reader (self s') = (appkafka.ReadMessage (done s) (reader (self s))).1 ∧
     trace s' = trace s
                ++ CallReadMessage
                     (appkafka.Value (appkafka.ReadMessage (done s) (reader (self s))).2.1)
                     (match (appkafka.ReadMessage (done s) (reader (self s))).2.2 with
                      | Some _ => true
                      | None => false
                      end) :: logs ∧
     count is_read logs = 0%nat).
Proof.
  intros H. unfold Run, readLoop, waitWithContext in H.
  case_split H; try discriminate H; injection H as <-; simpl.
  all: try (left; split; [done|]; eexists; split; [done|]; by rewrite ?count_cons).
  all: try (right; eexists; split_and!; done).
  all: right; exists []; split_and!; try done.
  all: match goal with E : appkafka.Value _ = _ |- _ => by rewrite E end.
Qed.

End Properties.

(** * The properties on concrete runs *)

(** On the worker of the shutdown test, with one message for author "1". *)
Lemma fanout_delivers_each_follower_witness :
  (∃ more,
     Forall (λ c, c ≠ Cancel ∧ c ≠ Proc 0 Recv) more ∧
     procs (exec (Proc 0 Next :: demo.fanout_two ++ more)
              (exec demo.until_fetch (Run_start (demo.w [demo.good])))) !! 0%nat
     = Some P_Select ∧
     done (exec (Proc 0 Next :: demo.fanout_two ++ more)
             (exec demo.until_fetch (Run_start (demo.w [demo.good])))) = false) ∧
  (procs (exec (Proc 0 Next :: demo.fanout_two)
            (exec demo.until_fetch (Run_start (demo.w [demo.good])))) !! 0%nat
   = Some P_Select →
   ∃ new,
     calls 0 (trace (exec (Proc 0 Next :: demo.fanout_two)
                       (exec demo.until_fetch (Run_start (demo.w [demo.good])))))
     = calls 0 (trace (exec demo.until_fetch (Run_start (demo.w [demo.good])))) ++ new ∧
     new ≡ₚ deliveries demo.post ["2"; "3"] ∧
     length new = length ["2"; "3"] ∧
     NoDup new ∧
     owned 0 (exec (Proc 0 Next :: demo.fanout_two)
                (exec demo.until_fetch (Run_start (demo.w [demo.good])))) = [] ∧
     ∃ ev,
       trace (exec (Proc 0 Next :: demo.fanout_two)
                (exec demo.until_fetch (Run_start (demo.w [demo.good]))))
       = trace (exec demo.until_fetch (Run_start (demo.w [demo.good]))) ++ ev ∧
       calls 0 ev = new ∧
       applied ev
         (store_ (self (exec demo.until_fetch (Run_start (demo.w [demo.good])))))
         (store_ (self (exec (Proc 0 Next :: demo.fanout_two)
                          (exec demo.until_fetch (Run_start (demo.w [demo.good]))))))).
Proof.
  apply (fanout_delivers_each_follower (demo.w [demo.good]) demo.until_fetch _ 0%nat
           demo.post ["2"; "3"] demo.st demo.fanout_two).
  - reflexivity.
  - vm_compute. reflexivity.
  - vm_compute. reflexivity.
  - apply NoDup_cons. split; [|apply NoDup_singleton].
    rewrite list_elem_of_singleton. discriminate.
  - repeat (constructor; [discriminate|]). constructor.
  - vm_compute. reflexivity.
Defined.

(** Scenario A: the run of the witness makes the two calls and the feeds of
    both followers hold the post. *)
Example fanout_two_calls :
  procs (exec (demo.until_fetch ++ Proc 0 Next :: demo.fanout_two)
           (Run_start (demo.w [demo.good]))) = [P_Select] ∧
  calls 0 (trace (exec (demo.until_fetch ++ Proc 0 Next :: demo.fanout_two)
                    (Run_start (demo.w [demo.good]))))
  = [("2", demo.post); ("3", demo.post)] ∧
  mock_store.Feed (store_ (self (exec (demo.until_fetch ++ Proc 0 Next :: demo.fanout_two)
                                   (Run_start (demo.w [demo.good])))))
  = {[ "2" := [demo.post]; "3" := [demo.post] ]}.
Proof. vm_compute. done. Qed.

(** C2 at a reader whose close fails: [Close] returns the error and the
    store is not closed. *)
Example Close_skips_store_when_reader_close_fails :
  Close demo.w_broken
  = ([Log Info "Closing Kafka reader"; CallReaderClose true;
      Log Error "Error closing Kafka reader"],
     demo.w_broken, Some "close failed").
Proof. reflexivity. Qed.

(** C3 as stated fails: in this run [Run] has returned, the single
    [processLoop] has returned, and the payload is still in the buffer. *)
Lemma Run_joins_with_payload_buffered :
  ¬ (∀ sched,
       main (exec sched (Run_start (demo.w [demo.good]))) = M_Done →
       buf (jobs (exec sched (Run_start (demo.w [demo.good])))) = []).
Proof.
  intros Hdrain. specialize (Hdrain demo.cancel_with_payload_buffered).
  vm_compute in Hdrain. specialize (Hdrain eq_refl). discriminate.
Qed.

(** C8 at a cancellation in the middle of the fan-out: the [processLoop]
    and [Run] have returned while the goroutine launched for follower "2"
    has not run yet; it makes its call afterwards. *)
Example cancel_returns_with_write_in_flight :
  main (exec demo.cancel_mid_fanout (Run_start (demo.w [demo.good]))) = M_Done ∧
  procs (exec demo.cancel_mid_fanout (Run_start (demo.w [demo.good]))) = [P_Returned] ∧
  tasks (exec demo.cancel_mid_fanout (Run_start (demo.w [demo.good])))
  = [{| owner := 0; uid := "2"; carried := demo.post |}] ∧
  calls 0 (trace (exec demo.cancel_mid_fanout (Run_start (demo.w [demo.good])))) = [] ∧
  last (trace (exec demo.cancel_mid_fanout (Run_start (demo.w [demo.good]))))
  = Some (Log Info "All workers stopped gracefully") ∧
  calls 0 (trace (exec (demo.cancel_mid_fanout ++ [Go 0]) (Run_start (demo.w [demo.good]))))
  = [("2", demo.post)].
Proof. vm_compute. done. Qed.

(** C9 as stated fails where ten times the pool size overflows. *)
Lemma New_capacity_wraps :
  jobQueueSize (New 8 demo.st (demo.rd []) (2 ^ 62) 0)
  ≠ 10 * workerCount (New 8 demo.st (demo.rd []) (2 ^ 62) 0).
Proof. vm_compute. discriminate. Qed.

Lemma New_defaults_witness :
  workerCount (New 8 demo.st (demo.rd []) 0 0) = 8 ∧
  jobQueueSize (New 8 demo.st (demo.rd []) 0 0) = 80.
Proof.
  apply (New_defaults 8 demo.st (demo.rd []) 0 0).
  intros _. vm_compute. split; discriminate.
Defined.

Lemma Run_fallbacks_witness :
  (workerCount (demo.w []) ≤ 0 →
     workerCount (self (Run_start (demo.w []))) = 1 ∧
     length (procs (Run_start (demo.w []))) = 1%nat) ∧
  (jobQueueSize (demo.w []) ≤ 0 →
     jobQueueSize (self (Run_start (demo.w []))) = 10 ∧
     cap (jobs (Run_start (demo.w []))) = 10) ∧
  (0 < length (procs (Run_start (demo.w []))))%nat ∧
  0 < cap (jobs (Run_start (demo.w []))) ∧
  (∀ NumCPU, 1 < NumCPU → NumCPU * 10 ≤ int_max →
     workerCount (demo.w []) ≤ 0 → jobQueueSize (demo.w []) ≤ 0 →
     workerCount (New NumCPU (store_ (demo.w [])) (reader (demo.w []))
                    (workerCount (demo.w [])) (jobQueueSize (demo.w [])))
       ≠ workerCount (self (Run_start (demo.w []))) ∧
     jobQueueSize (New NumCPU (store_ (demo.w [])) (reader (demo.w []))
                     (workerCount (demo.w [])) (jobQueueSize (demo.w [])))
       ≠ jobQueueSize (self (Run_start (demo.w [])))).
Proof.
  apply (Run_fallbacks (demo.w [])).
  left. vm_compute. discriminate.
Defined.

Lemma backoff_capped_monotone_reset_witness :
  backoff 3 ≤ backoff 12 ∧ backoff 12 ≤ 1000 ∧
  backoff 3 = Z.min 1000 (2 ^ 3) ∧ 1 ≤ backoff 3 ∧ backoff 0 = 1 ∧
  (∀ (s0 : State mock_store.MockStore mock_reader.MockKafkaReader) rd0 msg0 e,
     main s0 = M_Read →
     appkafka.ReadMessage (done s0) (reader (self s0)) = (rd0, (msg0, Some e)) →
     ∃ s1, step (Main Next) s0 = Some s1 ∧
           main s1 = M_Backoff (now s0 + backoff (retry s0)) ∧ retry s1 = retry s0) ∧
  ∃ s1, step (Main Next) demo.at_read = Some s1 ∧ retry s1 = 0 ∧
    (count is_read (trace (exec [Main Send; Main Default] s1)) = count is_read (trace s1) →
     retry (exec [Main Send; Main Default] s1) = 0 ∧
     (main (exec [Main Send; Main Default] s1) = M_Read →
      ∀ rd' msg' e,
        appkafka.ReadMessage (done (exec [Main Send; Main Default] s1))
          (reader (self (exec [Main Send; Main Default] s1)))
        = (rd', (msg', Some e)) →
        ∃ s3, step (Main Next) (exec [Main Send; Main Default] s1) = Some s3 ∧
              main s3 = M_Backoff (now (exec [Main Send; Main Default] s1) + backoff 0))).
Proof.
  apply (backoff_capped_monotone_reset 3 12 demo.at_read (demo.rd [])
           {| appkafka.Value := demo.good |} [Main Send; Main Default]).
  - lia.
  - lia.
  - vm_compute. reflexivity.
  - vm_compute. reflexivity.
Defined.

(** Scenario B: three failed reads in a row wait 1, 2 and 4 milliseconds. *)
Example three_failures_back_off :
  map backoff [0; 1; 2; 3; 9; 10; 11; 62; 63] = [1; 2; 4; 8; 512; 1000; 1000; 1000; 1000] ∧
  main (exec [Main Default; Main Next]
          (Run_start {| store_ := demo.st; reader := tt;
                        workerCount := 1; jobQueueSize := 1 |})) = M_Backoff 1 ∧
  main (exec [Main Default; Main Next; Tick; Main Timer; Main Default; Main Next]
          (Run_start {| store_ := demo.st; reader := tt;
                        workerCount := 1; jobQueueSize := 1 |})) = M_Backoff 3 ∧
  main (exec [Main Default; Main Next; Tick; Main Timer; Main Default; Main Next;
              Tick; Tick; Main Timer; Main Default; Main Next]
          (Run_start {| store_ := demo.st; reader := tt;
                        workerCount := 1; jobQueueSize := 1 |})) = M_Backoff 7.
Proof. vm_compute. done. Qed.

Lemma push_timeout_drops_witness :
  (∀ s0, main s0 = M_Read → step (Main Next) s0 = Some demo.at_full_push →
         100 = now s0 + 100) ∧
  (now demo.at_full_push < 100 → ∀ c, step (Main c) demo.at_full_push = None) ∧
  (100 ≤ now demo.at_full_push →
   step (Main Send) demo.at_full_push = None ∧
   step (Main CtxDone) demo.at_full_push = None ∧
   ∃ s', step (Main Timer) demo.at_full_push = Some s' ∧
     main s' = M_Select ∧ jobs s' = jobs demo.at_full_push ∧
     tasks s' = tasks demo.at_full_push ∧ procs s' = procs demo.at_full_push ∧
     trace s' = trace demo.at_full_push
                ++ [Log Info "Queue full, waiting to enqueue Kafka message"] ∧
     count is_enqueue (trace s') = count is_enqueue (trace demo.at_full_push) ∧
     (∀ v', step (Main Timer) (set_main (M_Push v' 100) [] demo.at_full_push)
            = Some (set_main M_Select [] s')) ∧
     step (Main Default) s' = Some (set_main M_Read [] s')).
Proof.
  apply (push_timeout_drops demo.at_full_push demo.good 100).
  - vm_compute. reflexivity.
  - vm_compute. discriminate.
  - vm_compute. reflexivity.
Defined.

(** The second payload is never delivered: once the timer has fired, the
    buffer holds the first payload only and the reader has nothing left. *)
Example dropped_payload_is_lost :
  buf (jobs (exec [Main Timer] demo.at_full_push)) = [demo.good] ∧
  main (exec [Main Timer] demo.at_full_push) = M_Select ∧
  mock_reader.Messages (reader (self (exec [Main Timer] demo.at_full_push))) = [] ∧
  count is_enqueue (trace (exec [Main Timer] demo.at_full_push)) = 1%nat ∧
  count is_read (trace (exec [Main Timer] demo.at_full_push)) = 2%nat.
Proof. vm_compute. done. Qed.

(** Scenario C. *)
Lemma decode_failure_skips_witness :
  ∃ s', step (Proc 0 Recv) demo.at_bad_payload = Some s' ∧
    procs s' !! 0%nat = Some P_Select ∧ procs s' = procs demo.at_bad_payload ∧
    tasks s' = tasks demo.at_bad_payload ∧
    store_ (self s') = store_ (self demo.at_bad_payload) ∧
    trace s' = trace demo.at_bad_payload
               ++ [Dequeue 0 demo.bad; Log Error "Invalid JSON in Kafka message"] ∧
    (∀ id', calls id' (trace s') = calls id' (trace demo.at_bad_payload)) ∧
    buf (jobs s') = [demo.good] ∧
    (∀ data' rest', [demo.good] = data' :: rest' →
       ∃ s'', step (Proc 0 Recv) s' = Some s'' ∧ buf (jobs s'') = rest' ∧
              Dequeue 0 data' ∈ trace s'').
Proof.
  apply (decode_failure_skips demo.at_bad_payload 0 demo.bad [demo.good]).
  - vm_compute. reflexivity.
  - vm_compute. reflexivity.
  - vm_compute. reflexivity.
Defined.

(** Scenario D. *)
Lemma fetch_failure_skips_witness :
  ∃ s', step (Proc 0 Next) demo.at_failing_fetch = Some s' ∧
    procs s' = <[0%nat := P_Select]> (procs demo.at_failing_fetch) ∧
    procs s' !! 0%nat = Some P_Select ∧
    tasks s' = tasks demo.at_failing_fetch ∧ jobs s' = jobs demo.at_failing_fetch ∧
    trace s' = trace demo.at_failing_fetch
               ++ [CallGetFollowers 0 (AuthorID demo.post) true;
                   Log Error "Error fetching followers for post author"] ∧
    (∀ id', calls id' (trace s') = calls id' (trace demo.at_failing_fetch)) ∧
    (∀ data rest, buf (jobs s') = data :: rest →
       ∃ s'', step (Proc 0 Recv) s' = Some s'' ∧ buf (jobs s'') = rest).
Proof.
  apply (fetch_failure_skips demo.at_failing_fetch 0 demo.post demo.st_failing []
           "mock: get followers failed").
  - vm_compute. reflexivity.
  - vm_compute. reflexivity.
Defined.

(** * The worker on the test doubles *)

Section OnMockStore.
Context {R : Type}.
Context `{HR : !appkafka.KafkaReader R, HD : !json.Decoder}.

Implicit Types (s : State mock_store.MockStore R) (w : Worker mock_store.MockStore R).

Lemma delivered_app u tr1 tr2 : delivered u (tr1 ++ tr2) = delivered u tr1 ++ delivered u tr2.
Proof. unfold delivered. apply omap_app. Qed.

Lemma delivered_cons u e tr : delivered u (e :: tr) = delivered u [e] ++ delivered u tr.
Proof. apply (delivered_app u [e] tr). Qed.

Lemma flagged_app f tr1 tr2 : flagged f (tr1 ++ tr2) ↔ flagged f tr1 ∧ flagged f tr2.
Proof. unfold flagged. apply Forall_app. Qed.

Lemma no_calls_nothing_delivered ev f u :
  (∀ id, calls id ev = []) → delivered u ev = [] ∧ flagged f ev.
Proof.
  induction ev as [|e ev IH]; intros Hev; [by split; [|constructor]|].
  destruct e; try (destruct IH as [? ?]; [exact Hev|]; split; [done|by constructor]).
  specialize (Hev id). simpl in Hev. by rewrite decide_True in Hev.
Qed.

Lemma MockRun_step m0 c s s' : step c s = Some s' → MockRun m0 s → MockRun m0 s'.
Proof.
  intros H (HU & HF & HP & HS & Hfl & Hfeed). unfold MockRun.
  destruct c as [| |c|id c|i]; simpl in H.
  - by injection H as <-.
  - by injection H as <-.
  - destruct (Run_keeps_store _ _ _ H) as [-> _].
    apply Run_shape in H as (_ & _ & _ & ev & -> & Hev).
    destruct (no_calls_nothing_delivered ev (mock_store.ShouldFail m0) "x" Hev) as [_ Hf].
    split_and!; try done; [by apply flagged_app|].
    intros u. rewrite delivered_app, Hfeed.
    destruct (no_calls_nothing_delivered ev true u Hev) as [-> _]. by rewrite app_nil_r.
  - destruct (procs s !! id) as [p|] eqn:Hp; [|done].
    assert (store_ (self s') = store_ (self s)) as ->.
    { destruct (processLoop_store _ _ _ _ _ H) as [?|(post & _ & ->)]; [done|].
      simpl. unfold mock_store.GetFollowers.
      by destruct (mock_store.ShouldFail (store_ (self s))). }
    apply processLoop_shape in H
      as (_ & _ & _ & _ & p' & ev & _ & -> & _ & _ & _ & Hev & _).
    destruct (no_calls_nothing_delivered ev (mock_store.ShouldFail m0) "x" Hev) as [_ Hf].
    split_and!; try done; [by apply flagged_app|].
    intros u. rewrite delivered_app, Hfeed.
    destruct (no_calls_nothing_delivered ev true u Hev) as [-> _]. by rewrite app_nil_r.
  - apply go_func_store in H as (t & logs & _ & -> & -> & Hlogs).
    simpl. unfold mock_store.AddToFeed. rewrite HS.
    assert (∀ u, delivered u logs = [] ∧ flagged (mock_store.ShouldFail m0) logs)
      as Hnone.
    { intros u. destruct Hlogs as [-> | ->]; split; try done; repeat constructor. }
    destruct (mock_store.ShouldFail m0) eqn:Hsf; simpl.
    + split_and!; try done.
      * apply flagged_app. split; [done|]. constructor; [done|]. apply (Hnone "x").
      * intros u. rewrite delivered_app, delivered_cons, Hfeed.
        destruct (Hnone u) as [-> _]. by rewrite !app_nil_r.
    + split_and!; try done.
      * apply flagged_app. split; [done|]. constructor; [done|]. apply (Hnone "x").
      * intros u. rewrite delivered_app, delivered_cons. destruct (Hnone u) as [-> _].
        unfold delivered at 2. simpl.
        destruct (decide (uid t = u)) as [->|Hne]; simpl.
        -- rewrite lookup_insert_eq. simpl. rewrite Hfeed, ?app_nil_r.
           by rewrite <- app_assoc.
        -- rewrite lookup_insert_ne by done. by rewrite Hfeed, ?app_nil_r.
Qed.

Lemma MockRun_exec m0 sched s : MockRun m0 s → MockRun m0 (exec sched s).
Proof.
  revert s. induction sched as [|c sched IH]; intros s HM; simpl; [done|].
  destruct (step c s) as [s'|] eqn:Hs; [|by apply IH].
  apply IH. by eapply MockRun_step.
Qed.

Lemma MockRun_start w : MockRun (store_ w) (Run_start w).
Proof.
  unfold MockRun. simpl. split_and!; try done.
  - repeat constructor.
  - intros u. by rewrite app_nil_r.
Qed.

(** *** One [processLoop] and at most one follower for each author *)

Lemma Serial_start w :
  workerCount w ≤ 1 →
  (∀ a, (length (default [] (mock_store.Followers (store_ w) !! a)) ≤ 1)%nat) →
  Serial (Run_start w).
Proof.
  intros Hw Hfol. unfold Serial, Run_start. simpl. split_and!; [done|done|].
  exists P_Select. split; [|done].
  destruct (Z.leb_spec (workerCount w) 0); [done|].
  by replace (workerCount w) with 1 by lia.
Qed.

Ltac split_cases H :=
  repeat match type of H with
         | context [match ?x with _ => _ end] =>
             lazymatch x with
             | context [match _ with _ => _ end] => fail
             | _ => destruct x eqn:?
             end
         end.

Lemma Serial_step c s s' : step c s = Some s' → Serial s → Serial s'.
Proof.
  intros H (Hfol & Hown & p & Hps & Hp). unfold Serial.
  destruct c as [| |c|id c|i]; simpl in H.
  - injection H as <-. simpl. split_and!; [done|done|]. by exists p.
  - injection H as <-. simpl. split_and!; [done|done|]. by exists p.
  - destruct (Run_keeps_store _ _ _ H) as [-> ->].
    apply Run_shape in H as (-> & _). split_and!; [done|done|]. by exists p.
  - rewrite Hps in H. destruct id as [|id]; [|done]. simpl in H.
    unfold processLoop in H.
    split_cases H; try discriminate H; injection H as <-; simpl in *.
    all: rewrite ?Hps; simpl.
    all: try match goal with
           | E : mock_store.GetFollowers _ _ = _ |- _ =>
               unfold mock_store.GetFollowers in E;
               destruct (mock_store.ShouldFail (store_ (self s)));
               simplify_eq
           end.
    all: try (split_and!; [done|done|]; eexists; split; [done|]; simpl;
              rewrite ?Hp; simpl; first [done|lia]).
    + split_and!; [done|done|]. eexists. split; [done|]. simpl.
      rewrite Hp. simpl. specialize (Hfol (AuthorID post)). lia.
    + split_and!; [done|done|]. eexists. split; [done|]. simpl in *.
      destruct l, (tasks s); simpl in *; try lia; done.
    + destruct Hp as [-> Hts]. rewrite Hts. simpl.
      split_and!; [done|by repeat constructor|]. eexists. split; [done|]. simpl. lia.
    + split_and!; [done|done|]. eexists. split; [done|]. simpl.
      unfold owned in *. destruct (tasks s) as [|t ts]; [done|].
      apply Forall_cons in Hown as [Ht _]. rewrite filter_cons in *.
      by rewrite decide_True in * by done.
  - unfold go_func in H. destruct (tasks s !! i) as [t|] eqn:Ht; [|done].
    assert (length (delete i (tasks s)) < length (tasks s))%nat as Hlen.
    { rewrite length_delete by done. apply lookup_lt_Some in Ht. lia. }
    assert (Forall (λ t, owner t = 0%nat) (delete i (tasks s))) as Hown'.
    { by apply Forall_delete. }
    simpl in H. unfold mock_store.AddToFeed in H.
    destruct (mock_store.ShouldFail (store_ (self s))); injection H as <-; simpl.
    all: split_and!; [done|done|]; exists p; split; [done|].
    all: destruct p; simpl in *; try lia.
    all: match goal with
         | Hq : _ ∧ tasks _ = [] |- _ => destruct Hq as [_ Hq]; by rewrite Hq in Ht
         | Hq : tasks _ = [] |- _ => by rewrite Hq in Ht
         end.
Qed.

Lemma Serial_exec sched s : Serial s → Serial (exec sched s).
Proof.
  revert s. induction sched as [|c sched IH]; intros s HS; simpl; [done|].
  destruct (step c s) as [s'|] eqn:Hs; [|by apply IH].
  apply IH. by eapply Serial_step.
Qed.

Lemma Serial_one_task s : Serial s → (length (tasks s) ≤ 1)%nat.
Proof.
  intros (_ & _ & p & _ & Hp).
  destruct p; try lia.
  all: match goal with
       | Hq : _ ∧ tasks _ = [] |- _ => destruct Hq as [_ ->]
       | Hq : tasks _ = [] |- _ => rewrite Hq
       end; simpl; lia.
Qed.

(** X8: a worker with one [processLoop], on a [MockStore] in which no
    author has more than one follower, never has two fan-out goroutines in
    flight, so the calls of [MockStore.AddToFeed] (an unsynchronised map
    write) never overlap. Then, whatever the run, the worker changes
    nothing but the feeds (users, follow edges, posts and the failure flag
    stay as they were), and the feed of every user is the feed it had
    followed by the posts of the [AddToFeed] calls for that user that did
    not fail, in the order of the calls: feeds only grow, by appending. *)
Theorem worker_only_appends_to_feeds w sched u :
  workerCount w ≤ 1 →
  (∀ a, (length (default [] (mock_store.Followers (store_ w) !! a)) ≤ 1)%nat) →
  (length (tasks (exec sched (Run_start w))) ≤ 1)%nat ∧
  mock_store.Users (store_ (self (exec sched (Run_start w)))) = mock_store.Users (store_ w) ∧
  mock_store.Followers (store_ (self (exec sched (Run_start w))))
  = mock_store.Followers (store_ w) ∧
  mock_store.Posts (store_ (self (exec sched (Run_start w)))) = mock_store.Posts (store_ w) ∧
  mock_store.ShouldFail (store_ (self (exec sched (Run_start w))))
  = mock_store.ShouldFail (store_ w) ∧
  default [] (mock_store.Feed (store_ (self (exec sched (Run_start w)))) !! u)
  = default [] (mock_store.Feed (store_ w) !! u)
    ++ delivered u (trace (exec sched (Run_start w))).
Proof.
  intros Hw Hfol.
  destruct (MockRun_exec (store_ w) sched _ (MockRun_start w))
    as (? & ? & ? & ? & _ & Hfeed).
  split_and!; try done.
  by apply Serial_one_task, Serial_exec, Serial_start.
Qed.

Lemma calls_delivered id u p tr :
  (u, p) ∈ calls id tr → flagged false tr → p ∈ delivered u tr.
Proof.
  induction tr as [|e tr IH]; [by intros ?%elem_of_nil|].
  intros Hin Hfl. apply Forall_cons in Hfl as [He Hfl].
  rewrite delivered_cons.
  destruct e; simpl in Hin; try (apply elem_of_app; right; by apply IH).
  subst. unfold delivered at 1. simpl.
  destruct (decide (id0 = id)) as [->|Hne].
  - apply elem_of_cons in Hin as [[= -> ->]|Hin].
    + rewrite decide_True by done. set_solver.
    + apply elem_of_app. right. by apply IH.
  - apply elem_of_app. right. by apply IH.
Qed.

(** X9: a worker with one [processLoop], on a [MockStore] that does not
    fail and in which no author has more than one follower (so that no two
    calls of [MockStore.AddToFeed] overlap): once the [processLoop] has
    handled a post (it is back at the top of its loop and the context is not
    cancelled), the feed of the follower of the post's author holds the
    post, and no fan-out goroutine is in flight. *)
Theorem post_reaches_every_follower w pre s id post sched u :
  workerCount w ≤ 1 →
  (∀ a, (length (default [] (mock_store.Followers (store_ w) !! a)) ≤ 1)%nat) →
  s = exec pre (Run_start w) →
  procs s !! id = Some (P_Fetch post) →
  mock_store.ShouldFail (store_ w) = false →
  Forall (λ c, c ≠ Proc id Recv) sched →
  done (exec (Proc id Next :: sched) s) = false →
  procs (exec (Proc id Next :: sched) s) !! id = Some P_Select →
  u ∈ default [] (mock_store.Followers (store_ w) !! AuthorID post) →
  post ∈ default [] (mock_store.Feed (store_ (self (exec (Proc id Next :: sched) s))) !! u) ∧
  tasks (exec (Proc id Next :: sched) s) = [].
Proof.
  intros Hw Hfol -> Hp Hsf Hsched Hd Hsel Hu.
  assert (tasks (exec (Proc id Next :: sched) (exec pre (Run_start w))) = []) as Hnone.
  { rewrite <- exec_app.
    destruct (Serial_exec (pre ++ Proc id Next :: sched) _ (Serial_start w Hw Hfol))
      as (_ & _ & p & Hps & Hp').
    rewrite <- exec_app in Hsel. rewrite Hps in Hsel.
    destruct id as [|id]; [|done]. simpl in Hsel. by simplify_eq. }
  split; [|done]. clear Hnone.
  destruct (MockRun_exec (store_ w) pre _ (MockRun_start w))
    as (_ & HF & _ & HS & _ & _).
  set (s := exec pre (Run_start w)) in *.
  assert (store.GetFollowers (AuthorID post) (store_ (self s))
          = (store_ (self s),
             (default [] (mock_store.Followers (store_ w) !! AuthorID post), None)))
    as Hget.
  { simpl. unfold mock_store.GetFollowers. by rewrite HS, Hsf, HF. }
  destruct (Fanout_start id post _ _ s (Inv_reachable w pre) Hp Hget)
    as (s1 & Hs1 & Hd1 & HF1).
  assert (exec (Proc id Next :: sched) s = exec (pre ++ Proc id Next :: sched) (Run_start w))
    as Heq by (by rewrite exec_app).
  destruct (MockRun_exec (store_ w) (pre ++ Proc id Next :: sched) _ (MockRun_start w))
    as (_ & _ & _ & _ & Hfl & Hfeed).
  rewrite <- Heq in Hfl, Hfeed. rewrite Hsf in Hfl.
  rewrite (exec_cons_some _ _ _ _ Hs1) in Hd, Hsel, Hfl, Hfeed |- *.
  destruct (Fanout_exec _ _ _ _ _ _ HF1 Hsched Hd)
    as (p & new & Hp2 & Hcalls & Hperm & Hserv).
  assert (p = P_Select) as -> by congruence.
  destruct Hserv as [?|[_ Ho]]; [done|].
  rewrite Ho in Hperm. simpl in Hperm. rewrite app_nil_r in Hperm.
  rewrite Hfeed. apply elem_of_app. right.
  apply (calls_delivered id); [|done].
  rewrite Hcalls. apply elem_of_app. right. rewrite Hperm.
  unfold deliveries. apply list_elem_of_In, in_map_iff. exists u.
  split; [done|]. by apply list_elem_of_In.
Qed.

End OnMockStore.

(** * The mock store *)

Section MockStoreOps.
Import mock_store.

Implicit Types (m : MockStore).

(** X10: on a [MockStore] that does not fail, [CreateFollow] and
    [GetFollowers] fit together: after [CreateFollow follower followee] the
    followers of [followee] are those it had followed by [follower], the
    followers of every other user and all feeds are as before; the edge is
    added even if it was there, so following twice lists the follower
    twice. *)
Theorem CreateFollow_GetFollowers m follower followee other :
  ShouldFail m = false →
  (GetFollowers followee (CreateFollow follower followee m).1).2
  = (default [] (Followers m !! followee) ++ [follower], None) ∧
  (other ≠ followee →
   (GetFollowers other (CreateFollow follower followee m).1).2
   = (GetFollowers other m).2) ∧
  Feed (CreateFollow follower followee m).1 = Feed m ∧
  (GetFollowers followee
     (CreateFollow follower followee (CreateFollow follower followee m).1).1).2
  = (default [] (Followers m !! followee) ++ [follower; follower], None).
Proof.
  intros Hsf. unfold CreateFollow, GetFollowers. rewrite !Hsf. simpl. rewrite ?Hsf. simpl.
  rewrite !lookup_insert_eq. simpl. split_and!; try done.
  - intros Hne. by rewrite lookup_insert_ne.
  - by rewrite <- app_assoc.
Qed.

Lemma GetFeed_returns m u limit :
  ShouldFail m = false →
  0 ≤ limit →
  GetFeed u limit m = Returns (take (Z.to_nat limit) (default [] (Feed m !! u)), None).
Proof.
  intros Hsf Hpos. unfold GetFeed. rewrite Hsf.
  set (posts := default [] (Feed m !! u)).
  destruct (Z.ltb_spec limit (Z.of_nat (length posts))).
  - destruct (Z.ltb_spec limit 0); [lia|done].
  - rewrite take_ge by lia. done.
Qed.

(** X11: [GetFeed] on a [MockStore] that does not fail panics exactly when
    [limit] is negative; otherwise it returns, without error, the first
    [limit] posts of the feed (all of them when there are fewer), oldest
    first. *)
Theorem GetFeed_prefix m u limit :
  ShouldFail m = false →
  (limit < 0 → GetFeed u limit m = Panics) ∧
  (0 ≤ limit →
   GetFeed u limit m = Returns (take (Z.to_nat limit) (default [] (Feed m !! u)), None) ∧
   Z.of_nat (length (take (Z.to_nat limit) (default [] (Feed m !! u))))
   = Z.min limit (Z.of_nat (length (default [] (Feed m !! u))))).
Proof.
  intros Hsf. unfold GetFeed. rewrite Hsf.
  set (posts := default [] (Feed m !! u)). split.
  - intros Hneg.
    destruct (Z.ltb_spec limit (Z.of_nat (length posts))); [|lia].
    destruct (Z.ltb_spec limit 0); [done|lia].
  - intros Hpos. split.
    + destruct (Z.ltb_spec limit (Z.of_nat (length posts))).
      * destruct (Z.ltb_spec limit 0); [lia|done].
      * rewrite take_ge by lia. done.
    + rewrite length_take. lia.
Qed.

(** X12: on a [MockStore] that does not fail, a post added to a feed is
    appended at its end, and [GetFeed] reads from the start: with
    [0 ≤ limit], the feed read after [AddToFeed u post] is the first [limit]
    posts of the old feed followed by [post]; so the new post is returned
    only while the feed held fewer than [limit] posts, and the feeds of the
    other users read as before. *)
Theorem AddToFeed_GetFeed m u post limit v :
  ShouldFail m = false →
  0 ≤ limit →
  GetFeed u limit (AddToFeed u post m).1
  = Returns (take (Z.to_nat limit) (default [] (Feed m !! u) ++ [post]), None) ∧
  (limit ≤ Z.of_nat (length (default [] (Feed m !! u))) →
   GetFeed u limit (AddToFeed u post m).1 = GetFeed u limit m) ∧
  (Z.of_nat (length (default [] (Feed m !! u))) < limit →
   GetFeed u limit (AddToFeed u post m).1
   = Returns (default [] (Feed m !! u) ++ [post], None)) ∧
  (v ≠ u → GetFeed v limit (AddToFeed u post m).1 = GetFeed v limit m).
Proof.
  intros Hsf Hpos.
  assert (GetFeed u limit (AddToFeed u post m).1
          = Returns (take (Z.to_nat limit) (default [] (Feed (AddToFeed u post m).1 !! u)),
                     None)) as Hget.
  { apply GetFeed_returns; [|done]. unfold AddToFeed. by rewrite Hsf. }
  pose proof (GetFeed_returns m u limit Hsf Hpos) as Hget0.
  assert (default [] (Feed (AddToFeed u post m).1 !! u) = default [] (Feed m !! u) ++ [post])
    as Hfeed.
  { unfold AddToFeed. rewrite Hsf. simpl. by rewrite lookup_insert_eq. }
  rewrite Hfeed in Hget. split_and!.
  - done.
  - intros Hfull. rewrite Hget, Hget0. by rewrite take_app_le by lia.
  - intros Hroom. rewrite Hget. rewrite take_ge; [done|]. rewrite length_app. simpl. lia.
  - intros Hne. unfold GetFeed, AddToFeed. rewrite !Hsf. simpl. rewrite ?Hsf.
    by rewrite lookup_insert_ne.
Qed.

Lemma wrap_in_range z : int_min ≤ wrap z ≤ int_max.
Proof.
  unfold wrap, int_min, int_max.
  pose proof (Z.mod_pos_bound (z + 2 ^ 63) (2 ^ 64)). lia.
Qed.

Lemma wrap_succ_ne z : int_min ≤ z ≤ int_max → wrap (z + 1) ≠ z.
Proof.
  intros Hz. destruct (decide (z = int_max)) as [->|Hne].
  - vm_compute. discriminate.
  - rewrite wrap_id; unfold int_min, int_max in *; lia.
Qed.

(** X13: on a [MockStore] that does not fail, [CreateUser] hands out fresh
    ids: two calls in a row return different ids, and after them both ids
    are registered, each with its own username (the second call does not
    overwrite the first user, even for the same username). *)
Theorem CreateUser_fresh_ids m counter name1 name2 :
  ShouldFail m = false →
  let '(c1, m1, (id1, err1)) := CreateUser name1 counter m in
  let '(c2, m2, (id2, err2)) := CreateUser name2 c1 m1 in
  err1 = None ∧ err2 = None ∧ id1 ≠ id2 ∧
  Users m2 !! id1 = Some name1 ∧ Users m2 !! id2 = Some name2.
Proof.
  intros Hsf. unfold CreateUser. rewrite !Hsf. simpl. rewrite ?Hsf.
  assert ("user_" +:+ pretty (wrap (counter + 1))
          ≠ "user_" +:+ pretty (wrap (wrap (counter + 1) + 1))) as Hne.
  { intros Heq. simpl in Heq. injection Heq as Heq.
    apply pretty_Z_inj in Heq. symmetry in Heq.
    revert Heq. apply wrap_succ_ne, wrap_in_range. }
  split_and!; try done.
  - rewrite lookup_insert_ne by done. by rewrite lookup_insert_eq.
  - by rewrite lookup_insert_eq.
Qed.

End MockStoreOps.

Section OnMockReader.
Context {S : Type}.
Context `{HS : !store.StoreInterface S, HD : !json.Decoder}.

Implicit Types (s : State S mock_reader.MockKafkaReader)
  (w : Worker S mock_reader.MockKafkaReader).

Lemma mock_read_cases ctx_done rd :
  ((mock_reader.ReadMessage ctx_done rd).1 = rd ∧
   appkafka.Value (mock_reader.ReadMessage ctx_done rd).2.1 = []) ∨
  (∃ msg rest,
     mock_reader.Messages rd = msg :: rest ∧
     (mock_reader.ReadMessage ctx_done rd).2 = (msg, None) ∧
     mock_reader.Messages (mock_reader.ReadMessage ctx_done rd).1 = rest ∧
     mock_reader.ShouldFail (mock_reader.ReadMessage ctx_done rd).1
     = mock_reader.ShouldFail rd ∧
     mock_reader.Closed (mock_reader.ReadMessage ctx_done rd).1 = mock_reader.Closed rd).
Proof.
  unfold mock_reader.ReadMessage.
  destruct (mock_reader.ShouldFail rd); [by left|].
  destruct ctx_done; [by left|].
  destruct (mock_reader.Messages rd) as [|msg rest] eqn:E; [by left|].
  right. by exists msg, rest.
Qed.

Lemma accepted_read v failed logs :
  count is_read logs = 0%nat →
  accepted (CallReadMessage v failed :: logs)
  = if failed then [] else match v with [] => [] | _ => [v] end.
Proof.
  intros Hlogs. change (CallReadMessage v failed :: logs)
    with ([CallReadMessage v failed] ++ logs).
  rewrite accepted_app, (no_read_nothing_accepted logs Hlogs), app_nil_r.
  unfold accepted. simpl. by destruct v, failed.
Qed.

Lemma ReaderRun_step r0 c s s' : step c s = Some s' → ReaderRun r0 s → ReaderRun r0 s'.
Proof.
  intros H (Hsf & Hcl & Hacc). unfold ReaderRun.
  destruct c as [| |c|id c|i]; simpl in H.
  - by injection H as <-.
  - by injection H as <-.
  - destruct (Run_reads _ _ _ H) as [[-> (ev & -> & Hev)]|(logs & -> & -> & Hlogs)].
    + by rewrite accepted_app, (no_read_nothing_accepted ev), app_nil_r.
    + rewrite accepted_app, accepted_read by done. simpl.
      destruct (mock_read_cases (done s) (reader (self s)))
        as [[-> ->]|(msg & rest & Hm & -> & -> & -> & ->)].
      * split_and!; try done. rewrite <- Hacc. f_equal.
        by destruct (mock_reader.ReadMessage _ _).2.2; rewrite app_nil_r.
      * split_and!; try done. rewrite <- Hacc, Hm, <- app_assoc. f_equal.
        unfold payloads. simpl. by destruct (appkafka.Value msg).
  - destruct (procs s !! id) as [p|] eqn:Hp; [|done].
    destruct (processLoop_keeps _ _ _ _ _ H) as (_ & _ & -> & _).
    apply processLoop_shape in H
      as (_ & _ & _ & _ & p' & ev & _ & -> & _ & _ & Hev & _).
    by rewrite accepted_app, (no_read_nothing_accepted ev), app_nil_r.
  - destruct (go_func_keeps _ _ _ H) as (_ & _ & ->).
    apply go_func_shape in H
      as (t & failed & logs & _ & _ & _ & _ & _ & _ & -> & Hlogs).
    rewrite accepted_app.
    rewrite (no_read_nothing_accepted (_ :: logs)) by (by destruct Hlogs as [-> | ->]).
    by rewrite app_nil_r.
Qed.

Lemma ReaderRun_exec r0 sched s : ReaderRun r0 s → ReaderRun r0 (exec sched s).
Proof.
  revert s. induction sched as [|c sched IH]; intros s HM; simpl; [done|].
  destruct (step c s) as [s'|] eqn:Hs; [|by apply IH].
  apply IH. by eapply ReaderRun_step.
Qed.

Lemma payloads_sublist msgs : payloads msgs `sublist_of` map appkafka.Value msgs.
Proof.
  induction msgs as [|m msgs IH]; [done|]. unfold payloads in *. simpl.
  destruct (appkafka.Value m); simpl; by constructor.
Qed.

(** X14: with a [MockKafkaReader], the worker reads the queue in order and
    loses nothing while reading: at any point of a run the non-empty values
    read so far followed by the non-empty values still queued are the
    non-empty values queued at the start; and [Run] never closes the
    reader. *)
Theorem reader_queue_conserved w sched :
  accepted (trace (exec sched (Run_start w)))
  ++ payloads (mock_reader.Messages (reader (self (exec sched (Run_start w)))))
  = payloads (mock_reader.Messages (reader w)) ∧
  mock_reader.Closed (reader (self (exec sched (Run_start w))))
  = mock_reader.Closed (reader w).
Proof.
  destruct (ReaderRun_exec (reader w) sched (Run_start w)) as (_ & ? & ?); [|done].
  unfold ReaderRun. simpl. done.
Qed.

(** X15: with a [MockKafkaReader], the payloads the [processLoop]
    goroutines receive are messages of the queue, each at most as often as
    it is queued, and they are received in the order of the queue. *)
Theorem processed_in_queue_order w sched :
  dequeued (trace (exec sched (Run_start w)))
  `sublist_of` map appkafka.Value (mock_reader.Messages (reader w)).
Proof.
  destruct (Flow_exec sched _ (Flow_start w)) as [(_ & Hfifo & Hsub) _].
  destruct (ReaderRun_exec (reader w) sched (Run_start w)) as (_ & _ & Hacc);
    [by unfold ReaderRun|].
  set (s := exec sched (Run_start w)) in *.
  transitivity (payloads (mock_reader.Messages (reader w))); [|apply payloads_sublist].
  rewrite <- Hacc.
  transitivity (accepted (trace s)); [|by apply sublist_inserts_r].
  transitivity (enqueued (trace s) ++ pushing (main s)); [|exact Hsub].
  transitivity (enqueued (trace s)); [|by apply sublist_inserts_r].
  rewrite Hfifo. by apply sublist_inserts_r.
Qed.

End OnMockReader.

(** * The broker's mock *)

Section MockKafkaOps.
Import mock_kafka.

Implicit Types (m : MockKafka).

Lemma read_n_empty k ctx m :
  ShouldFail m = false →
  ReadMessages m = [] →
  read_n k ctx m = (m, replicate k (mock_reader.empty, None)).
Proof.
  intros Hsf Hq. induction k as [|k IH]; [done|].
  simpl. unfold ReadMessage. rewrite Hsf, Hq. by rewrite IH.
Qed.

(** X16: a [MockKafka] that does not fail serves [ReadMessages] as a queue:
    as many reads as there are messages return them in order, each without
    error, and every read after that returns the empty message, still
    without error (so the worker takes an exhausted queue for an idle
    topic); [WrittenMessages] is not touched. *)
Theorem MockKafka_reads_queue_then_empty m k ctx :
  ShouldFail m = false →
  read_n (length (ReadMessages m) + k) ctx m
  = ({| WrittenMessages := WrittenMessages m; ReadMessages := []; ShouldFail := false |},
     map (λ msg, (msg, None)) (ReadMessages m) ++ replicate k (mock_reader.empty, None)).
Proof.
  destruct m as [written queue fail]. simpl. intros ->.
  induction queue as [|msg queue IH]; simpl.
  - by apply read_n_empty.
  - by rewrite IH.
Qed.

(** X17: the two sides of a [MockKafka] are not connected: on a mock that
    does not fail, a series of [WriteMessages] calls appends the batches to
    [WrittenMessages] in order, leaves the read queue as it was, and the
    next [ReadMessage] returns what it would have returned before the
    writes. *)
Theorem MockKafka_writes_are_not_read batches m ctx :
  ShouldFail m = false →
  WrittenMessages (write_all batches m) = WrittenMessages m ++ concat batches ∧
  ReadMessages (write_all batches m) = ReadMessages m ∧
  ShouldFail (write_all batches m) = false ∧
  (ReadMessage ctx (write_all batches m)).2 = (ReadMessage ctx m).2.
Proof.
  intros Hsf.
  assert (WrittenMessages (write_all batches m) = WrittenMessages m ++ concat batches ∧
          ReadMessages (write_all batches m) = ReadMessages m ∧
          ShouldFail (write_all batches m) = false) as (Hw & Hr & Hf).
  { revert m Hsf. induction batches as [|b batches IH]; intros m Hsf.
    - simpl. by rewrite app_nil_r.
    - unfold write_all in *. simpl.
      destruct (IH (WriteMessages b m).1) as (Hw & Hr & Hf).
      { unfold WriteMessages. by rewrite Hsf. }
      rewrite Hw, Hr, Hf. unfold WriteMessages. rewrite Hsf. simpl.
      by rewrite <- app_assoc. }
  split_and!; try done.
  unfold ReadMessage. rewrite Hf, Hsf, Hr. by destruct (ReadMessages m).
Qed.

End MockKafkaOps.

(** * [runWorkerOnce] *)

Section RunWorkerOnce.
Context {S R : Type}.
Context `{HS : !store.StoreInterface S, HR : !appkafka.KafkaReader R, HD : !json.Decoder}.
Import worker_test.

Lemma add_each_app F1 F2 post (st st1 : S) :
  add_each F1 post st = (st1, None) →
  add_each (F1 ++ F2) post st = add_each F2 post st1.
Proof.
  revert st. induction F1 as [|v F1 IH]; intros st; simpl.
  - by intros [= ->].
  - destruct (store.AddToFeed v post st) as [st' [e|]]; [done|]. apply IH.
Qed.

(** X18: [runWorkerOnce] stops at the first [AddToFeed] that fails: when
    the writes for the followers [F1] succeed and the write for [u] fails,
    it returns that error with the store as the failed call left it,
    whatever followers [F2] come after [u]; they are not written. (The
    worker's [processLoop] goes on instead.) *)
Theorem runWorkerOnce_stops_at_first_failed_write
    ctx (st : S) (r r' : R) msg post st0 F1 u F2 st1 st2 e :
  appkafka.ReadMessage ctx r = (r', (msg, None)) →
  appkafka.Value msg ≠ [] →
  json.Unmarshal (appkafka.Value msg) = Some post →
  store.GetFollowers (AuthorID post) st = (st0, (F1 ++ u :: F2, None)) →
  add_each F1 post st0 = (st1, None) →
  store.AddToFeed u post st1 = (st2, Some e) →
  runWorkerOnce ctx st r = (st2, r', Some e).
Proof.
  intros Hread Hval Hdec Hget HF1 Hu.
  unfold runWorkerOnce. rewrite Hread.
  destruct (appkafka.Value msg) as [|b v] eqn:Hv; [done|].
  rewrite Hdec, Hget.
  rewrite (add_each_app _ _ _ _ _ HF1). simpl. by rewrite Hu.
Qed.

End RunWorkerOnce.

Section RunWorkerOnceOnMocks.
Context `{HD : !json.Decoder}.
Import worker_test.

Lemma add_each_mock F post (st : mock_store.MockStore) :
  mock_store.ShouldFail st = false →
  ∃ st', add_each F post st = (st', None) ∧
    mock_store.Users st' = mock_store.Users st ∧
    mock_store.Followers st' = mock_store.Followers st ∧
    mock_store.Posts st' = mock_store.Posts st ∧
    mock_store.ShouldFail st' = false ∧
    ∀ u, default [] (mock_store.Feed st' !! u)
         = default [] (mock_store.Feed st !! u)
           ++ replicate (length (filter (λ v, v = u) F)) post.
Proof.
  revert st. induction F as [|v F IH]; intros st Hsf.
  - exists st. split_and!; try done. intros u. by rewrite app_nil_r.
  - simpl. unfold mock_store.AddToFeed at 1. rewrite Hsf.
    edestruct IH as (st' & -> & HU & HF & HP & HS' & Hfeed); [|exists st'; split_and!; try done].
    { done. }
    intros u. rewrite Hfeed. simpl. rewrite filter_cons.
    destruct (decide (v = u)) as [->|Hne].
    + rewrite lookup_insert_eq. simpl. by rewrite <- app_assoc.
    + by rewrite lookup_insert_ne.
Qed.

Lemma add_each_mock_failing F post (st : mock_store.MockStore) :
  mock_store.ShouldFail st = true →
  (add_each F post st).1 = st.
Proof.
  intros Hsf. destruct F as [|v F]; [done|].
  simpl. unfold mock_store.AddToFeed. by rewrite Hsf.
Qed.

(** X19: [runWorkerOnce] on a [MockStore] and a [MockKafka] that do not
    fail, with a decodable message at the head of the queue: it returns nil,
    takes exactly that message off the queue, and appends the post to the
    feed of each follower of the author, once for each time the follower is
    listed; users, follow edges and posts stay as they were. *)
Theorem runWorkerOnce_delivers_on_mocks ctx (st : mock_store.MockStore)
    (k : mock_kafka.MockKafka) msg rest post :
  mock_store.ShouldFail st = false →
  mock_kafka.ShouldFail k = false →
  mock_kafka.ReadMessages k = msg :: rest →
  appkafka.Value msg ≠ [] →
  json.Unmarshal (appkafka.Value msg) = Some post →
  ∃ st',
    runWorkerOnce ctx st k
    = (st', {| mock_kafka.WrittenMessages := mock_kafka.WrittenMessages k;
               mock_kafka.ReadMessages := rest;
               mock_kafka.ShouldFail := false |}, None) ∧
    mock_store.Users st' = mock_store.Users st ∧
    mock_store.Followers st' = mock_store.Followers st ∧
    mock_store.Posts st' = mock_store.Posts st ∧
    ∀ u, default [] (mock_store.Feed st' !! u)
         = default [] (mock_store.Feed st !! u)
           ++ replicate
                (length (filter (λ v, v = u)
                           (default [] (mock_store.Followers st !! AuthorID post))))
                post.
Proof.
  intros Hsf Hkf Hq Hval Hdec.
  destruct (add_each_mock (default [] (mock_store.Followers st !! AuthorID post)) post st Hsf)
    as (st' & Hadd & HU & HF & HP & _ & Hfeed).
  exists st'. split_and!; try done.
  destruct k as [written queue fail]. simpl in Hkf, Hq. subst.
  unfold runWorkerOnce. simpl. unfold mock_kafka.ReadMessage. simpl.
  destruct (appkafka.Value msg) as [|b v] eqn:Hv; [done|].
  rewrite Hdec. unfold mock_store.GetFollowers. by rewrite Hsf, Hadd.
Qed.

(** X20: on a [MockStore], [runWorkerOnce] is all or nothing: whenever it
    returns an error (a failed read, an undecodable payload, a failed
    fetch or a failed write), the store is exactly as it was. *)
Theorem runWorkerOnce_error_leaves_MockStore {R : Type} `{HR : !appkafka.KafkaReader R}
    ctx (st st' : mock_store.MockStore) (r r' : R) e :
  runWorkerOnce ctx st r = (st', r', Some e) →
  st' = st.
Proof.
  unfold runWorkerOnce.
  destruct (appkafka.ReadMessage ctx r) as [r1 [msg [e1|]]]; [by intros [= <- _ _]|].
  destruct (appkafka.Value msg) as [|b v]; [done|].
  destruct (json.Unmarshal (b :: v)) as [post|]; [|by intros [= <- _ _]].
  simpl. unfold mock_store.GetFollowers.
  destruct (mock_store.ShouldFail st) eqn:Hsf; [by intros [= <- _ _]|].
  destruct (add_each_mock (default [] (mock_store.Followers st !! AuthorID post)) post st Hsf)
    as (st2 & -> & _). done.
Qed.

End RunWorkerOnceOnMocks.

(** * The authorization header and the feed route *)

Section Auth.
Import middleware.
Context {Resp : Type}.
Variable http_Error : string → Z → Resp.
Variable Parse : string → option Token.

Lemma cut_spec s before after :
  cut s = Some (before, after) → s = before +:+ String.String Ascii.Space after.
Proof.
  revert before. induction s as [|a s IH]; intros before; simpl; [done|].
  destruct (Ascii.eqb_spec a Ascii.Space) as [->|Hne].
  - by intros [= <- <-].
  - destruct (cut s) as [[x y]|]; [|done]. intros [= <- <-].
    by rewrite (IH x eq_refl) at 1.
Qed.

Lemma cut_Bearer t : cut ("Bearer " +:+ t) = Some ("Bearer", t).
Proof. reflexivity. Qed.

(** What [JWTAuth] asks of a request: the header is "Bearer ", then a token
    that parses, is valid and carries the string claim [user_id]. *)
Lemma JWTAuth_cases next h ctx :
  (∃ t tok claims uid,
     h = "Bearer " +:+ t ∧ Parse t = Some tok ∧ Valid tok = true ∧
     Claims tok = Some claims ∧ claims !! "user_id" = Some (AString uid) ∧
     JWTAuth http_Error Parse next h ctx = next (WithValue ctx UserCtxKey (AString uid)))
  ∨ ((∀ t tok claims uid,
        h = "Bearer " +:+ t → Parse t = Some tok → Valid tok = true →
        Claims tok = Some claims → claims !! "user_id" = Some (AString uid) → False) ∧
     ∃ msg, JWTAuth http_Error Parse next h ctx = http_Error msg StatusUnauthorized).
Proof.
  unfold JWTAuth.
  destruct (decide (h = String.EmptyString)) as [->|Hne].
  { right. split; [by intros ? ? ? ? [=]|by eexists]. }
  unfold SplitN2. destruct (cut h) as [[scheme cred]|] eqn:Hcut.
  2:{ right. split; [|by eexists].
      intros t ? ? ? ->. by rewrite cut_Bearer in Hcut. }
  destruct (decide (scheme = "Bearer")) as [->|Hs].
  2:{ right. split; [|by eexists].
      intros t ? ? ? ->. rewrite cut_Bearer in Hcut. congruence. }
  apply cut_spec in Hcut. simpl in Hcut. subst h.
  assert (∀ t, "Bearer " +:+ cred = "Bearer " +:+ t → t = cred) as Hinj.
  { intros t Heq. simpl in Heq. by injection Heq. }
  destruct (Parse cred) as [tok|] eqn:Hp.
  2:{ right. split; [|by eexists].
      intros t ? ? ? ->%Hinj. congruence. }
  destruct (Valid tok) eqn:Hv; simpl.
  2:{ right. split; [|by eexists].
      intros t ? ? ? ->%Hinj. congruence. }
  destruct (Claims tok) as [claims|] eqn:Hc.
  2:{ right. split; [|by eexists].
      intros t ? ? ? ->%Hinj. congruence. }
  destruct (claims !! "user_id") as [[uid|]|] eqn:Hu.
  - left. by exists cred, tok, claims, uid.
  - right. split; [|by eexists].
    intros t ? ? ? ->%Hinj. congruence.
  - right. split; [|by eexists].
    intros t ? ? ? ->%Hinj. congruence.
Qed.

(** X21: [JWTAuth] lets a request through exactly when its Authorization
    header is the text "Bearer " followed by a token that parses, is valid
    and carries a string claim [user_id]; the handler then finds that user
    id with [UserIDFromContext], whatever the context held before. Every
    other request (no header, another scheme, no space, a bad token, a
    [user_id] that is not a string) is answered with status 401 and the
    handler is not called. *)
Theorem JWTAuth_bearer_only next h ctx :
  (∃ t tok claims uid,
     h = "Bearer " +:+ t ∧ Parse t = Some tok ∧ Valid tok = true ∧
     Claims tok = Some claims ∧ claims !! "user_id" = Some (AString uid) ∧
     JWTAuth http_Error Parse next h ctx = next (WithValue ctx UserCtxKey (AString uid)) ∧
     UserIDFromContext (WithValue ctx UserCtxKey (AString uid)) = (uid, true))
  ∨ ((∀ t tok claims uid,
        h = "Bearer " +:+ t → Parse t = Some tok → Valid tok = true →
        Claims tok = Some claims → claims !! "user_id" = Some (AString uid) → False) ∧
     ∃ msg, JWTAuth http_Error Parse next h ctx = http_Error msg 401).
Proof.
  destruct (JWTAuth_cases next h ctx) as [(t & tok & claims & uid & ? & ? & ? & ? & ? & ?)|?].
  - left. exists t, tok, claims, uid. split_and!; try done.
  - by right.
Qed.

End Auth.

Section FeedRoute.
Import mock_store middleware server.
Variable Atoi : string → option Z.
Variable Parse : string → option Token.

Lemma feed_limit_positive limitStr : 0 < feed_limit Atoi limitStr.
Proof.
  unfold feed_limit. destruct (decide _); [lia|].
  destruct (Atoi limitStr) as [l|]; [|lia].
  destruct (Z.ltb_spec 0 l); lia.
Qed.

(** X22: the route [/feed] on a [MockStore] never panics, whatever the
    [limit] parameter is (a text that is no number, zero or a negative
    number fall back to 50, so [GetFeed] is never asked for a negative
    slice). It answers with a feed only to an authenticated request, and
    the feed is then the first [limit] posts of the feed of the user named
    in the token; otherwise the answer is 401, or 500 when the store
    fails. *)
Theorem feed_route_never_panics h limitStr (st : MockStore) :
  ∃ resp,
    feed_route Atoi Parse h limitStr st = Returns resp ∧
    match resp with
    | Json feed =>
        ∃ t tok claims uid,
          h = "Bearer " +:+ t ∧ Parse t = Some tok ∧ Valid tok = true ∧
          Claims tok = Some claims ∧ claims !! "user_id" = Some (AString uid) ∧
          ShouldFail st = false ∧
          feed = take (Z.to_nat (feed_limit Atoi limitStr)) (default [] (Feed st !! uid)) ∧
          Z.of_nat (length feed) ≤ feed_limit Atoi limitStr
    | HttpError _ code =>
        code = 401 ∨ (code = 500 ∧ ShouldFail st = true)
    end.
Proof.
  unfold feed_route.
  destruct (JWTAuth_cases (λ msg code, Returns (HttpError msg code)) Parse
              (getFeedHandler Atoi limitStr st) h [])
    as [(t & tok & claims & uid & Hh & Hp & Hv & Hc & Hu & ->)|[_ [msg ->]]].
  2:{ eexists. split; [done|]. by left. }
  unfold getFeedHandler, UserIDFromContext, WithValue, Value.
  rewrite decide_True by done. simpl.
  pose proof (feed_limit_positive limitStr) as Hpos.
  destruct (ShouldFail st) eqn:Hsf.
  - unfold GetFeed. rewrite Hsf. eexists. split; [done|]. by right.
  - rewrite GetFeed_returns by (done || lia).
    eexists. split; [done|].
    exists t, tok, claims, uid. split_and!; try done.
    rewrite length_take. lia.
Qed.

End FeedRoute.

(** * The further properties on concrete inputs *)

(** The run of the shutdown test that is cancelled with a payload buffered:
    [Run] has returned, and the context is done. *)
Lemma Run_returns_only_after_cancellation_witness :
  done (exec demo.cancel_with_payload_buffered (Run_start (demo.w [demo.good]))) = true.
Proof.
  apply (Run_returns_only_after_cancellation (demo.w [demo.good])
           demo.cancel_with_payload_buffered).
  vm_compute. reflexivity.
Defined.

(** After two failed reads in a row [retry] is 2 and the third failure
    waits 4 milliseconds. *)
Lemma retry_counts_failures_in_a_row_witness :
  retry (exec demo.two_failures (Run_start demo.w_broken))
  = Z.of_nat (failures_in_a_row (trace (exec demo.two_failures (Run_start demo.w_broken)))) ∧
  ∀ rd msg e,
    appkafka.ReadMessage (done (exec demo.two_failures (Run_start demo.w_broken)))
      (reader (self (exec demo.two_failures (Run_start demo.w_broken)))) = (rd, (msg, Some e)) →
    ∃ s', step (Main Next) (exec demo.two_failures (Run_start demo.w_broken)) = Some s' ∧
      main s' = M_Backoff
                  (now (exec demo.two_failures (Run_start demo.w_broken))
                   + Z.min 1000
                       (2 ^ Z.of_nat (failures_in_a_row
                                        (trace (exec demo.two_failures
                                                  (Run_start demo.w_broken)))))).
Proof.
  apply (retry_counts_failures_in_a_row demo.w_broken demo.two_failures).
  - vm_compute. reflexivity.
  - vm_compute. discriminate.
Defined.

(** The author is followed twice by "2" and the store refuses every write:
    the call for "2" is made twice. *)
Lemma fanout_without_deduplication_witness :
  ∃ new,
    calls 0 (trace (exec (Proc 0 Next :: demo.fanout_two)
                      (exec demo.until_fetch
                         (Run_start (read_only_store.w_twice [demo.good])))))
    = calls 0 (trace (exec demo.until_fetch
                        (Run_start (read_only_store.w_twice [demo.good])))) ++ new ∧
    new ≡ₚ deliveries demo.post ["2"; "2"] ∧
    (∀ u, length (filter (λ c, c = (u, demo.post)) new)
          = length (filter (λ v, v = u) ["2"; "2"])) ∧
    ∃ ev,
      trace (exec (Proc 0 Next :: demo.fanout_two)
               (exec demo.until_fetch (Run_start (read_only_store.w_twice [demo.good]))))
      = trace (exec demo.until_fetch (Run_start (read_only_store.w_twice [demo.good])))
        ++ ev ∧
      calls 0 ev = new ∧
      applied ev
        (store_ (self (exec demo.until_fetch
                         (Run_start (read_only_store.w_twice [demo.good])))))
        (store_ (self (exec (Proc 0 Next :: demo.fanout_two)
                         (exec demo.until_fetch
                            (Run_start (read_only_store.w_twice [demo.good])))))).
Proof.
  apply (fanout_without_deduplication (read_only_store.w_twice [demo.good])
           demo.until_fetch _ 0%nat demo.post ["2"; "2"]
           {| read_only_store.inner := demo.st_twice |} demo.fanout_two).
  - reflexivity.
  - vm_compute. reflexivity.
  - vm_compute. reflexivity.
  - repeat (constructor; [discriminate|]). constructor.
  - vm_compute. reflexivity.
  - vm_compute. reflexivity.
Defined.

Lemma st_single_followers a :
  (length (default [] (mock_store.Followers demo.st_single !! a)) ≤ 1)%nat.
Proof.
  simpl. destruct (decide (a = "1")) as [->|Hne].
  - rewrite lookup_singleton_eq. simpl. lia.
  - rewrite lookup_singleton_ne by congruence. simpl. lia.
Qed.

(** One [processLoop], author "1" with the one follower "2": after the
    fan-out of the post. *)
Lemma worker_only_appends_to_feeds_witness :
  (length (tasks (exec (demo.until_fetch ++ Proc 0 Next :: demo.fanout_one)
                    (Run_start (demo.w_single [demo.good])))) ≤ 1)%nat ∧
  mock_store.Users
    (store_ (self (exec (demo.until_fetch ++ Proc 0 Next :: demo.fanout_one)
                     (Run_start (demo.w_single [demo.good])))))
  = mock_store.Users (store_ (demo.w_single [demo.good])) ∧
  mock_store.Followers
    (store_ (self (exec (demo.until_fetch ++ Proc 0 Next :: demo.fanout_one)
                     (Run_start (demo.w_single [demo.good])))))
  = mock_store.Followers (store_ (demo.w_single [demo.good])) ∧
  mock_store.Posts
    (store_ (self (exec (demo.until_fetch ++ Proc 0 Next :: demo.fanout_one)
                     (Run_start (demo.w_single [demo.good])))))
  = mock_store.Posts (store_ (demo.w_single [demo.good])) ∧
  mock_store.ShouldFail
    (store_ (self (exec (demo.until_fetch ++ Proc 0 Next :: demo.fanout_one)
                     (Run_start (demo.w_single [demo.good])))))
  = mock_store.ShouldFail (store_ (demo.w_single [demo.good])) ∧
  default []
    (mock_store.Feed
       (store_ (self (exec (demo.until_fetch ++ Proc 0 Next :: demo.fanout_one)
                        (Run_start (demo.w_single [demo.good])))))
     !! "2")
  = default [] (mock_store.Feed (store_ (demo.w_single [demo.good])) !! "2")
    ++ delivered "2"
         (trace (exec (demo.until_fetch ++ Proc 0 Next :: demo.fanout_one)
                   (Run_start (demo.w_single [demo.good])))).
Proof.
  apply (worker_only_appends_to_feeds (demo.w_single [demo.good])
           (demo.until_fetch ++ Proc 0 Next :: demo.fanout_one) "2").
  - simpl. lia.
  - apply st_single_followers.
Defined.

(** The same run: the feed of "2" holds the post. *)
Example single_follower_feed :
  mock_store.Feed
    (store_ (self (exec (demo.until_fetch ++ Proc 0 Next :: demo.fanout_one)
                     (Run_start (demo.w_single [demo.good])))))
  = {[ "2" := [demo.post] ]}.
Proof. vm_compute. done. Qed.

(** On that worker the post reaches the follower "2". *)
Lemma post_reaches_every_follower_witness :
  demo.post
  ∈ default []
      (mock_store.Feed
         (store_ (self (exec (Proc 0 Next :: demo.fanout_one)
                          (exec demo.until_fetch (Run_start (demo.w_single [demo.good]))))))
       !! "2") ∧
  tasks (exec (Proc 0 Next :: demo.fanout_one)
           (exec demo.until_fetch (Run_start (demo.w_single [demo.good])))) = [].
Proof.
  apply (post_reaches_every_follower (demo.w_single [demo.good]) demo.until_fetch _ 0%nat
           demo.post demo.fanout_one "2").
  - simpl. lia.
  - apply st_single_followers.
  - reflexivity.
  - vm_compute. reflexivity.
  - reflexivity.
  - repeat (constructor; [discriminate|]). constructor.
  - vm_compute. reflexivity.
  - vm_compute. reflexivity.
  - vm_compute. apply list_elem_of_here.
Defined.

(** "4" follows "1", who had the followers "2" and "3". *)
Lemma CreateFollow_GetFollowers_witness :
  (mock_store.GetFollowers "1" (mock_store.CreateFollow "4" "1" demo.st).1).2
  = (default [] (mock_store.Followers demo.st !! "1") ++ ["4"], None) ∧
  ("2" ≠ "1" →
   (mock_store.GetFollowers "2" (mock_store.CreateFollow "4" "1" demo.st).1).2
   = (mock_store.GetFollowers "2" demo.st).2) ∧
  mock_store.Feed (mock_store.CreateFollow "4" "1" demo.st).1 = mock_store.Feed demo.st ∧
  (mock_store.GetFollowers "1"
     (mock_store.CreateFollow "4" "1" (mock_store.CreateFollow "4" "1" demo.st).1).1).2
  = (default [] (mock_store.Followers demo.st !! "1") ++ ["4"; "4"], None).
Proof.
  apply (CreateFollow_GetFollowers demo.st "4" "1" "2"). reflexivity.
Defined.

(** A feed of one post, read with the limits -1 and 1. *)
Lemma GetFeed_prefix_witness :
  mock_store.GetFeed "2" (-1) (mock_store.AddToFeed "2" demo.post demo.st).1 = Panics ∧
  mock_store.GetFeed "2" 1 (mock_store.AddToFeed "2" demo.post demo.st).1
  = Returns ([demo.post], None).
Proof.
  split.
  - apply (proj1 (GetFeed_prefix (mock_store.AddToFeed "2" demo.post demo.st).1 "2" (-1)
                    eq_refl)).
    lia.
  - destruct (GetFeed_prefix (mock_store.AddToFeed "2" demo.post demo.st).1 "2" 1 eq_refl)
      as [_ Hget].
    destruct Hget as [Hget _]; [lia|]. exact Hget.
Defined.

Lemma AddToFeed_GetFeed_witness :
  mock_store.GetFeed "2" 10 (mock_store.AddToFeed "2" demo.post demo.st).1
  = Returns (take (Z.to_nat 10) (default [] (mock_store.Feed demo.st !! "2") ++ [demo.post]),
             None).
Proof.
  destruct (AddToFeed_GetFeed demo.st "2" demo.post 10 "3") as [Hget _];
    [reflexivity|lia|exact Hget].
Defined.

(** Two users created on an empty store. *)
Lemma CreateUser_fresh_ids_witness :
  let '(c1, m1, (id1, err1)) := mock_store.CreateUser "alice" 0 mock_store.NewMock in
  let '(c2, m2, (id2, err2)) := mock_store.CreateUser "bob" c1 m1 in
  err1 = None ∧ err2 = None ∧ id1 ≠ id2 ∧
  mock_store.Users m2 !! id1 = Some "alice" ∧ mock_store.Users m2 !! id2 = Some "bob".
Proof.
  apply (CreateUser_fresh_ids mock_store.NewMock 0 "alice" "bob"). reflexivity.
Defined.

(** Two queued messages and two more reads. *)
Lemma MockKafka_reads_queue_then_empty_witness :
  mock_kafka.read_n (length (mock_kafka.ReadMessages (demo.kafka [demo.good; demo.bad])) + 2)
    false (demo.kafka [demo.good; demo.bad])
  = ({| mock_kafka.WrittenMessages :=
          mock_kafka.WrittenMessages (demo.kafka [demo.good; demo.bad]);
        mock_kafka.ReadMessages := [];
        mock_kafka.ShouldFail := false |},
     map (λ msg, (msg, None)) (mock_kafka.ReadMessages (demo.kafka [demo.good; demo.bad]))
     ++ replicate 2 (mock_reader.empty, None)).
Proof.
  apply (MockKafka_reads_queue_then_empty (demo.kafka [demo.good; demo.bad]) 2 false).
  reflexivity.
Defined.

(** Two batches written to a mock with one message to read. *)
Lemma MockKafka_writes_are_not_read_witness :
  mock_kafka.WrittenMessages
    (mock_kafka.write_all [[ {| appkafka.Value := demo.bad |} ]; []] (demo.kafka [demo.good]))
  = mock_kafka.WrittenMessages (demo.kafka [demo.good])
    ++ concat [[ {| appkafka.Value := demo.bad |} ]; []] ∧
  mock_kafka.ReadMessages
    (mock_kafka.write_all [[ {| appkafka.Value := demo.bad |} ]; []] (demo.kafka [demo.good]))
  = mock_kafka.ReadMessages (demo.kafka [demo.good]) ∧
  mock_kafka.ShouldFail
    (mock_kafka.write_all [[ {| appkafka.Value := demo.bad |} ]; []] (demo.kafka [demo.good]))
  = false ∧
  (mock_kafka.ReadMessage false
     (mock_kafka.write_all [[ {| appkafka.Value := demo.bad |} ]; []] (demo.kafka [demo.good]))).2
  = (mock_kafka.ReadMessage false (demo.kafka [demo.good])).2.
Proof.
  apply (MockKafka_writes_are_not_read [[ {| appkafka.Value := demo.bad |} ]; []]
           (demo.kafka [demo.good]) false).
  reflexivity.
Defined.

(** On a store that refuses writes, with the followers "2" and "3": the
    write for "2" fails and [runWorkerOnce] returns. *)
Lemma runWorkerOnce_stops_at_first_failed_write_witness :
  worker_test.runWorkerOnce false {| read_only_store.inner := demo.st |}
    (demo.kafka [demo.good])
  = ({| read_only_store.inner := demo.st |}, demo.kafka [], Some "write refused").
Proof.
  apply (runWorkerOnce_stops_at_first_failed_write false
           {| read_only_store.inner := demo.st |} (demo.kafka [demo.good]) (demo.kafka [])
           {| appkafka.Value := demo.good |} demo.post
           {| read_only_store.inner := demo.st |} [] "2" ["3"]
           {| read_only_store.inner := demo.st |} {| read_only_store.inner := demo.st |}
           "write refused").
  - vm_compute. reflexivity.
  - vm_compute. discriminate.
  - vm_compute. reflexivity.
  - vm_compute. reflexivity.
  - reflexivity.
  - reflexivity.
Defined.

(** The positive test of the worker package: one post of author "1". *)
Lemma runWorkerOnce_delivers_on_mocks_witness :
  ∃ st',
    worker_test.runWorkerOnce false demo.st (demo.kafka [demo.good])
    = (st', {| mock_kafka.WrittenMessages := mock_kafka.WrittenMessages (demo.kafka [demo.good]);
               mock_kafka.ReadMessages := [];
               mock_kafka.ShouldFail := false |}, None) ∧
    mock_store.Users st' = mock_store.Users demo.st ∧
    mock_store.Followers st' = mock_store.Followers demo.st ∧
    mock_store.Posts st' = mock_store.Posts demo.st ∧
    ∀ u, default [] (mock_store.Feed st' !! u)
         = default [] (mock_store.Feed demo.st !! u)
           ++ replicate
                (length (filter (λ v, v = u)
                           (default [] (mock_store.Followers demo.st !! AuthorID demo.post))))
                demo.post.
Proof.
  apply (runWorkerOnce_delivers_on_mocks false demo.st (demo.kafka [demo.good])
           {| appkafka.Value := demo.good |} [] demo.post).
  - reflexivity.
  - reflexivity.
  - reflexivity.
  - vm_compute. discriminate.
  - vm_compute. reflexivity.
Defined.

(** The test with invalid JSON: the error is returned and the store is as
    it was. *)
Lemma runWorkerOnce_error_leaves_MockStore_witness :
  worker_test.runWorkerOnce false demo.st (demo.kafka [demo.bad])
  = (demo.st, demo.kafka [], Some "json: cannot unmarshal") ∧
  demo.st = demo.st.
Proof.
  split.
  - vm_compute. reflexivity.
  - apply (runWorkerOnce_error_leaves_MockStore false demo.st demo.st
             (demo.kafka [demo.bad]) (demo.kafka []) "json: cannot unmarshal").
    vm_compute. reflexivity.
Defined.

(** The feed route on the store of the examples: the token of user "2" is
    let through, a header without the scheme is not. *)
Example feed_route_examples :
  server.feed_route (λ _, None) demo.Parse "Bearer t2" "0"
    (mock_store.AddToFeed "2" demo.post demo.st).1
  = Returns (server.Json [demo.post]) ∧
  server.feed_route (λ _, None) demo.Parse "t2" "0"
    (mock_store.AddToFeed "2" demo.post demo.st).1
  = Returns (server.HttpError "invalid Authorization header" 401) ∧
  server.feed_route (λ _, Some (-3)) demo.Parse "Bearer t2" "-3"
    (mock_store.AddToFeed "2" demo.post demo.st).1
  = Returns (server.Json [demo.post]).
Proof. vm_compute. done. Qed.
